(** * checks_urls_response_code: the URL-checking engine

    A shallow embedding of [checks_urls_response_code.py]:
    - [fetch_status], the probe of one URL (HEAD, then GET on a status >= 400);
    - [color_for_status] and [emoji_for_status], the display classification;
    - the concurrent part of [check_urls]: a [ThreadPoolExecutor] of
      [MAX_WORKERS] threads, one submitted [fetch_status] call per row, and the
      [as_completed] loop that collects one result row per future.

    Python's [int] is [Z]; [str] values are [string]; the value that
    [fetch_status] returns (an [int] or the string "ERROR") is [outcome]. *)

From Stdlib Require Import ZArith String Ascii List Bool Arith Lia.
From Stdlib Require Import DecimalString Permutation.
Import ListNotations.

Local Open Scope string_scope.
Local Open Scope Z_scope.

(** ** Exceptions and results *)

(** The subclasses of [requests.RequestException] that a request raises. *)
Inductive request_exception : Type :=
| Timeout
| ConnectionError
| SSLError
| TooManyRedirects
| InvalidURL
| ChunkedEncodingError.

(** Instances of Python's [Exception].  [RequestException sub] stands for
    [requests.RequestException] and its subclasses; [OtherException name] for
    any exception class outside that hierarchy. *)
Inductive exn : Type :=
| RequestException (sub : request_exception)
| KeyError
| OtherException (name : string).

(** [except requests.RequestException] *)
Definition isinstance_RequestException (e : exn) : bool :=
  match e with
  | RequestException _ => true
  | _ => false
  end.

(** [except Exception] on an instance of [Exception].  The exceptions
    outside [Exception], which it does not catch, are [system_exit] below. *)
Definition isinstance_Exception (e : exn) : bool := true.

(** What evaluating a Python expression gives: a value or a raised exception. *)
Inductive result (A : Type) : Type :=
| Ok (a : A)
| Raise (e : exn).
Arguments Ok {A} a.
Arguments Raise {A} e.

(** ** The transport: [requests.head] and [requests.get] *)

Inductive http_method : Type := HEAD | GET.

(** One call of the [requests] API with the keyword arguments the script
    passes. *)
Record call : Type := mk_call {
  call_method : http_method;
  call_url : string;
  allow_redirects : bool;
  timeout : Z
}.

(** [requests.Response]; the script reads [status_code] only. *)
Record Response : Type := mk_response { status_code : Z }.

(** The network as the script sees it: every call answers with a response or
    raises. *)
Definition transport : Type := call -> result Response.

(** ** Statements that mutate a state and may raise

    [M S A] is a Python block that works on a state [S] (the calls a thread has
    made, or the local variables of [check_urls]) and either gives a value or
    raises.  What was done before a [raise] stays done. *)
Definition M (S A : Type) : Type := S -> result A * S.

Definition ret {S A : Type} (a : A) : M S A := fun s => (Ok a, s).

Definition raise {S A : Type} (e : exn) : M S A := fun s => (Raise e, s).

Definition bind {S A B : Type} (c : M S A) (k : A -> M S B) : M S B :=
  fun s =>
    match c s with
    | (Ok a, s') => k a s'
    | (Raise e, s') => (Raise e, s')
    end.

(** [try: c  except <catches>: handler] *)
Definition try_except {S A : Type} (c : M S A) (catches : exn -> bool)
    (handler : M S A) : M S A :=
  fun s =>
    match c s with
    | (Ok a, s') => (Ok a, s')
    | (Raise e, s') => if catches e then handler s' else (Raise e, s')
    end.

(** A thread that calls the transport keeps the calls it issued, oldest
    first. *)
Definition io (A : Type) : Type := M (list call) A.

Notation "x <- c ;; k" := (bind c (fun x => k))
  (at level 61, c at next level, right associativity).

(** ** Configurable constants *)

Definition MAX_WORKERS : nat := 50.
Definition TIMEOUT : Z := 10.

(** ** The probe *)

(** The value of [code]: an [int] status or the string "ERROR". *)
Inductive outcome : Type :=
| Code (status : Z)
| ERROR.

Section Probe.

Variable requests : transport.

Definition request (m : http_method) (url : string) (redirects : bool)
    (tmo : Z) : io Response :=
  fun log =>
    let c := mk_call m url redirects tmo in
    (requests c, (log ++ [c])%list).

Definition requests_head := request HEAD.
Definition requests_get := request GET.

Definition fetch_status (url : string) : io outcome :=
  try_except
    (r <- requests_head url true TIMEOUT ;;
     r <- (if status_code r >=? 400
           then requests_get url true TIMEOUT
           else ret r) ;;
     ret (Code (status_code r)))
    isinstance_RequestException
    (ret ERROR).

End Probe.

(** The two calls [fetch_status] can make for [url]. *)
Definition head_call (url : string) : call := mk_call HEAD url true TIMEOUT.
Definition get_call (url : string) : call := mk_call GET url true TIMEOUT.

(** ** Console classification *)

(** The ANSI sequences behind colorama's [Fore] and [Style] constants. *)
Definition ESC : string := String (ascii_of_nat 27) EmptyString.

Module Fore.
Definition GREEN : string := ESC ++ "[32m".
Definition YELLOW : string := ESC ++ "[33m".
Definition RED : string := ESC ++ "[31m".
Definition LIGHTBLACK_EX : string := ESC ++ "[90m".
End Fore.

Module Style.
Definition RESET_ALL : string := ESC ++ "[0m".
End Style.

(** Python's [str] on an [int]. *)
Definition str (z : Z) : string := NilZero.string_of_int (Z.to_int z).

Definition color_for_status (code : outcome) : string :=
  match code with
  | Code c =>
      if (200 <=? c) && (c <? 300) then Fore.GREEN ++ str c ++ Style.RESET_ALL
      else if (300 <=? c) && (c <? 400) then Fore.YELLOW ++ str c ++ Style.RESET_ALL
      else if (400 <=? c) && (c <? 600) then Fore.RED ++ str c ++ Style.RESET_ALL
      else Fore.LIGHTBLACK_EX ++ "ERROR" ++ Style.RESET_ALL
  | ERROR => Fore.LIGHTBLACK_EX ++ "ERROR" ++ Style.RESET_ALL
  end.

Definition emoji_for_status (code : outcome) : string :=
  match code with
  | Code c =>
      if (200 <=? c) && (c <? 300) then "🟩"
      else if (300 <=? c) && (c <? 400) then "🟨"
      else if (400 <=? c) && (c <? 600) then "🟥"
      else "⚫"
  | ERROR => "⚫"
  end.

(** ** Rows *)

(** A row read from the input CSV: [{"URL": url, "Langs": langs, "Status": status}]. *)
Record row : Type := mk_row {
  URL : string;
  Langs : string;
  Status : string
}.

(** A row of the output CSV. *)
Record result_row : Type := mk_result_row {
  out_URL : string;
  out_Langs : string;
  ResponseCode : outcome;
  out_Status : string
}.

(** ** Lists keyed by a future *)

(** A future is identified by its submission number. *)
Definition future : Type := nat.

Section Keyed.

Context {A : Type} (key : A -> future).

(** The first element with key [k]. *)
Definition find_key (k : future) (l : list A) : option A :=
  find (fun a => key a =? k)%nat l.

(** [l] without the elements of key [k]. *)
Definition discard (k : future) (l : list A) : list A :=
  filter (fun a => negb (key a =? k)%nat) l.

End Keyed.

(** A dict with futures as keys, in insertion order. *)
Definition lookup {V : Type} (k : future) (d : list (future * V)) : option V :=
  option_map snd (find_key fst k d).

(** [d[k]] *)
Definition dict_get {S V : Type} (d : list (future * V)) (k : future) : M S V :=
  match lookup k d with
  | Some v => ret v
  | None => raise KeyError
  end.

(** ** The body of [check_urls] between reading the rows and writing the file *)

(** The variables of [check_urls] that the collecting loop writes. *)
Record locals : Type := mk_locals {
  console : list string;
  results : list result_row
}.

Definition print (line : string) : M locals unit :=
  fun l => (Ok tt, mk_locals (console l ++ [line])%list (results l)).

Definition results_append (r : result_row) : M locals unit :=
  fun l => (Ok tt, mk_locals (console l) (results l ++ [r])%list).

(** [fut.result()] on a finished future: the value the call returned, or the
    exception it raised, raised again. *)
Definition future_result {S : Type} (res : result outcome) : M S outcome :=
  fun s => (res, s).

(** One iteration of [for fut in as_completed(future_map)], for the future
    [fut] whose call ended in [res]. *)
Definition loop_body (future_map : list (future * row)) (fut : future)
    (res : result outcome) : M locals unit :=
  r <- dict_get future_map fut ;;
  code <- try_except (future_result res) isinstance_Exception (ret ERROR) ;;
  _ <- print (emoji_for_status code ++ " " ++ URL r ++ " -> "
              ++ color_for_status code) ;;
  results_append (mk_result_row (URL r) (Langs r) code (Status r)).

(** Where the main thread stands. *)
Inductive main_thread : Type :=
| Submitting (todo : list row)
    (** in the dict comprehension, with [todo] still to submit *)
| Collecting (pending : list future)
    (** in the [as_completed] loop, [pending] not yet yielded *)
| Returned (written : list result_row)
    (** past the [with] block: [written] went to [writer.writerows] *)
| Propagating (e : exn).
    (** an exception left the loop *)

(** The executor, its futures and the main thread. *)
Record state : Type := mk_state {
  main : main_thread;
  vars : locals;
  future_map : list (future * row);
  work_queue : list (future * string);
    (** submitted calls [fetch_status(url)] no worker has taken yet *)
  in_flight : list (future * string);
    (** calls a worker thread is executing *)
  finished : list (future * result outcome)
    (** futures that are done, with what the call returned or raised *)
}.

(** What the scheduler can let happen next. *)
Inductive action : Type :=
| Main               (** the main thread runs its next statement *)
| Yield (f : future) (** [as_completed] yields [f]; the loop body runs *)
| Start              (** a free worker takes the oldest queued call *)
| Finish (f : future). (** the worker that runs [f] finishes the call *)
Arguments Yield f%_nat.
Arguments Finish f%_nat.

Definition LF : string := String (ascii_of_nat 10) EmptyString.

(** The line printed before the executor is created. *)
Definition banner (rows : list row) : string :=
  "🔍 Checking " ++ str (Z.of_nat (length rows)) ++ " URLs using up to "
  ++ str (Z.of_nat MAX_WORKERS) ++ " threads..." ++ LF.

(** [results = []], nothing submitted yet. *)
Definition initial (rows : list row) : state :=
  mk_state (Submitting rows) (mk_locals [banner rows] []) [] [] [] [].

Section Dispatcher.

(** [ThreadPoolExecutor(max_workers=...)] *)
Variable max_workers : nat.

(** What the network answers to the calls of each future. *)
Variable net : future -> transport.

(** The call [fetch_status(url)] as the worker of future [f] runs it. *)
Definition task (f : future) (url : string) : result outcome :=
  fst (fetch_status (net f) url []).

Definition step (a : action) (s : state) : option state :=
  match a with
  | Main =>
      match main s with
      | Submitting (r :: todo) =>
          (* executor.submit(fetch_status, r["URL"]): r *)
          let fut := length (future_map s) in
          Some (mk_state (Submitting todo) (vars s)
                  (future_map s ++ [(fut, r)])
                  (work_queue s ++ [(fut, URL r)])
                  (in_flight s) (finished s))
      | Submitting [] =>
          (* as_completed(future_map) *)
          Some (mk_state (Collecting (map fst (future_map s))) (vars s)
                  (future_map s) (work_queue s) (in_flight s) (finished s))
      | Collecting [] =>
          (* leaving the with block: executor.shutdown(wait=True) *)
          match work_queue s, in_flight s with
          | [], [] =>
              Some (mk_state (Returned (results (vars s))) (vars s)
                      (future_map s) [] [] (finished s))
          | _, _ => None
          end
      | _ => None
      end
  | Yield f =>
      match main s with
      | Collecting pending =>
          if existsb (Nat.eqb f) pending then
            match lookup f (finished s) with
            | Some res =>
                match loop_body (future_map s) f res (vars s) with
                | (Ok _, l) =>
                    Some (mk_state (Collecting (discard id f pending)) l
                            (future_map s) (work_queue s) (in_flight s)
                            (finished s))
                | (Raise e, l) =>
                    Some (mk_state (Propagating e) l
                            (future_map s) (work_queue s) (in_flight s)
                            (finished s))
                end
            | None => None
            end
          else None
      | _ => None
      end
  | Start =>
      match work_queue s with
      | w :: queue =>
          if (length (in_flight s) <? max_workers)%nat then
            Some (mk_state (main s) (vars s) (future_map s) queue
                    (in_flight s ++ [w]) (finished s))
          else None
      | [] => None
      end
  | Finish f =>
      match lookup f (in_flight s) with
      | Some url =>
          Some (mk_state (main s) (vars s) (future_map s) (work_queue s)
                  (discard fst f (in_flight s))
                  (finished s ++ [(f, task f url)]))
      | None => None
      end
  end.

(** A schedule, run from [s]. *)
Fixpoint exec (sched : list action) (s : state) : option state :=
  match sched with
  | [] => Some s
  | a :: sched' =>
      match step a s with
      | Some s' => exec sched' s'
      | None => None
      end
  end.

End Dispatcher.

(** The states [check_urls] goes through on [rows]. *)
Definition check_urls (net : future -> transport) (rows : list row)
    (sched : list action) : option state :=
  exec MAX_WORKERS net sched (initial rows).

(** ** Vocabulary of the specification *)

(** The display categories as the specification words them: 200-299 success,
    300-399 redirect, 400-599 error, everything else unknown. *)
Inductive category : Type := Success | Redirect | ClientServerError | Unknown.

Definition spec_category (code : outcome) : category :=
  match code with
  | Code c =>
      if (200 <=? c) && (c <=? 299) then Success
      else if (300 <=? c) && (c <=? 399) then Redirect
      else if (400 <=? c) && (c <=? 599) then ClientServerError
      else Unknown
  | ERROR => Unknown
  end.

Definition category_emoji (cat : category) : string :=
  match cat with
  | Success => "🟩"
  | Redirect => "🟨"
  | ClientServerError => "🟥"
  | Unknown => "⚫"
  end.

Definition category_color (cat : category) : string :=
  match cat with
  | Success => Fore.GREEN
  | Redirect => Fore.YELLOW
  | ClientServerError => Fore.RED
  | Unknown => Fore.LIGHTBLACK_EX
  end.

(** The text a category is shown with: the number, or the word ERROR for
    the unknown category. *)
Definition category_text (code : outcome) : string :=
  match spec_category code, code with
  | Unknown, _ => "ERROR"
  | _, Code c => str c
  | _, ERROR => "ERROR"
  end.

(** The statuses by which a server declines the HEAD method itself:
    405 Method Not Allowed and 501 Not Implemented. *)
Definition head_rejected (r : Response) : Prop :=
  status_code r = 405 \/ status_code r = 501.

(** The log contains a GET. *)
Definition get_invoked (log : list call) : Prop :=
  exists c, In c log /\ call_method c = GET.

(** The (URL, Langs, Status) triple a row carries. *)
Definition triple_of_row (r : row) : string * string * string :=
  (URL r, Langs r, Status r).

Definition triple_of_result (r : result_row) : string * string * string :=
  (out_URL r, out_Langs r, out_Status r).

(** ** Test data *)

(** A static mock transport. *)
Definition mock (c : call) : result Response :=
  match call_method c with
  | HEAD =>
      if String.eqb (call_url c) "https://ok.test" then Ok (mk_response 200)
      else if String.eqb (call_url c) "https://gone.test" then Ok (mk_response 404)
      else if String.eqb (call_url c) "https://nohead.test" then Ok (mk_response 405)
      else if String.eqb (call_url c) "https://odd.test"
           then Raise (OtherException "UnicodeError")
      else Raise (RequestException Timeout)
  | GET =>
      if String.eqb (call_url c) "https://nohead.test" then Ok (mk_response 200)
      else if String.eqb (call_url c) "https://gone.test" then Ok (mk_response 410)
      else Raise (RequestException ConnectionError)
  end.

Definition sample_rows : list row :=
  [ mk_row "https://ok.test" "en" "";
    mk_row "https://broken.test" "" "x";
    mk_row "https://odd.test" "fr" "y";
    mk_row "https://ok.test" "en" "" ].

(** A schedule for [sample_rows] in which the calls finish out of order. *)
Definition sample_schedule : list action :=
  [ Main; Main; Start; Main; Start; Finish 1; Main; Start; Start; Main;
    Finish 3; Yield 3; Finish 0; Finish 2; Yield 2; Yield 1; Yield 0; Main ].

(** The same rows with every call started, finished and collected in
    submission order. *)
Definition sample_schedule_fifo : list action :=
  [ Main; Main; Main; Main; Main; Start; Finish 0; Yield 0; Start; Finish 1;
    Yield 1; Start; Finish 2; Yield 2; Start; Finish 3; Yield 3; Main ].

(** The rows a run handed to [writer.writerows], if it got that far. *)
Definition written_rows (run : option state) : list result_row :=
  match run with
  | Some s =>
      match main s with
      | Returned written => written
      | _ => []
      end
  | None => []
  end.

(** ** What a complete run has to produce *)

(** The futures of [rows] with the row each was submitted for. *)
Definition enumerate (rows : list row) : list (future * row) :=
  combine (seq 0 (length rows)) rows.

Definition keys {V : Type} (d : list (future * V)) : list future := map fst d.

(** The value the loop binds to [code] for a future that ended in [res]. *)
Definition code_of (res : result outcome) : outcome :=
  match res with
  | Ok c => c
  | Raise _ => ERROR
  end.

(** The output row of the future [f] submitted for the row [r]. *)
Definition expected_row (net : future -> transport) (fr : future * row)
    : result_row :=
  let (f, r) := fr in
  mk_result_row (URL r) (Langs r) (code_of (task net f (URL r))) (Status r).

(** The steps a state is at most away from the end of the run: four per future
    (submit, start, finish, yield), one for [as_completed], one for leaving the
    [with] block. *)
Definition measure (s : state) : nat :=
  (match main s with
   | Submitting todo => 4 * length todo + length (future_map s) + 2
   | Collecting pending => length pending + 1
   | Returned _ => 0
   | Propagating _ => 0
   end + 2 * length (work_queue s) + length (in_flight s))%nat.

(** What holds in every state of a run on [rows]. *)
Record invariant (max_workers : nat) (net : future -> transport)
    (rows : list row) (s : state) : Prop := mk_invariant {
  inv_keys : keys (future_map s) = seq 0 (length (future_map s));
  inv_rows :
    match main s with
    | Submitting todo => rows = (map snd (future_map s) ++ todo)%list
    | _ => rows = map snd (future_map s)
    end;
  inv_tasks :
    Permutation (keys (future_map s))
      (keys (work_queue s) ++ keys (in_flight s) ++ keys (finished s));
  inv_urls :
    forall f url, In (f, url) (work_queue s ++ in_flight s) ->
                  exists r, In (f, r) (future_map s) /\ url = URL r;
  inv_finished :
    forall f res, In (f, res) (finished s) ->
                  exists r, In (f, r) (future_map s) /\
                            res = task net f (URL r);
  inv_bound : (length (in_flight s) <= max_workers)%nat;
  inv_main :
    match main s with
    | Submitting _ => results (vars s) = []
    | Collecting pending =>
        exists done rest,
          Permutation (future_map s) (done ++ rest) /\
          pending = keys rest /\
          results (vars s) = map (expected_row net) done /\
          incl (keys done) (keys (finished s))
    | Returned written =>
        written = results (vars s) /\
        Permutation written (map (expected_row net) (future_map s)) /\
        work_queue s = [] /\ in_flight s = []
    | Propagating _ => False
    end
}.

(** ** Reading the input file *)

(** A value of a [csv.DictReader] row: a [str], or [None] where the line had
    fewer fields than the header. *)
Inductive cell : Type :=
| Text (s : string)
| NoneValue.

(** A dict with [str] keys, in insertion order. *)
Definition str_dict (V : Type) : Type := list (string * V).

(** [d.get(k)] *)
Definition str_get {V : Type} (k : string) (d : str_dict V) : option V :=
  option_map snd (find (fun kv => String.eqb (fst kv) k) d).

(** [d[k] = v]: a key that is present keeps its place and takes the new
    value. *)
Fixpoint str_set {V : Type} (k : string) (v : V) (d : str_dict V)
    : str_dict V :=
  match d with
  | [] => [(k, v)]
  | (k', v') :: d' =>
      if String.eqb k' k then (k', v) :: d' else (k', v') :: str_set k v d'
  end.

(** What [None.strip()] raises. *)
Definition AttributeError : exn := OtherException "AttributeError".

(** [for a in l: body(a)] *)
Fixpoint for_each {S A : Type} (body : A -> M S unit) (l : list A)
    : M S unit :=
  match l with
  | [] => ret tt
  | a :: l' => _ <- body a ;; for_each body l'
  end.

(** [rows.append(r)] *)
Definition rows_append (r : row) : M (list row) unit :=
  fun rows => (Ok tt, (rows ++ [r])%list).

Section Reader.

(** [str.strip] and [str.lower]. *)
Variable strip : string -> string.
Variable lower : string -> string.

(** [(s or "").strip().lower()] on a [str]. *)
Definition norm (s : string) : string := lower (strip s).

(** [{norm(h): h for h in (reader.fieldnames or [])}] *)
Definition header_map (fieldnames : option (list string)) : str_dict string :=
  fold_left (fun d h => str_set (norm h) h d)
    (match fieldnames with
     | Some l => l
     | None => []
     end)
    [].

Definition getcol {S : Type} (hm : str_dict string) (r : str_dict cell)
    (key_norm : string) (default : string) : M S string :=
  match str_get key_norm hm with
  | Some orig =>
      if String.eqb orig "" then ret default
      else
        match str_get orig r with
        | Some (Text v) => ret (strip v)
        | Some NoneValue => raise AttributeError
        | None => ret (strip default)
        end
  | None => ret default
  end.

(** The body of [for row in reader]. *)
Definition read_row (hm : str_dict string) (r : str_dict cell)
    : M (list row) unit :=
  url <- getcol hm r "url" "" ;;
  if String.eqb url "" then ret tt
  else
    (langs <- getcol hm r "langs" "" ;;
     status <- getcol hm r "status" "" ;;
     rows_append (mk_row url langs status)).

(** The rows [check_urls] builds from the header and the records of the
    reader, or the exception that ends the reading. *)
Definition read_rows (fieldnames : option (list string))
    (records : list (str_dict cell)) : result (list row) :=
  match for_each (read_row (header_map fieldnames)) records [] with
  | (Ok _, rows) => Ok rows
  | (Raise e, _) => Raise e
  end.

End Reader.

(** ASCII stand-ins for [str.strip] and [str.lower], for the examples. *)
Definition ascii_isspace (c : ascii) : bool :=
  let n := nat_of_ascii c in
  ((n =? 32) || ((9 <=? n) && (n <=? 13)) || ((28 <=? n) && (n <=? 31)))%nat.

Fixpoint ascii_lstrip (s : string) : string :=
  match s with
  | EmptyString => EmptyString
  | String c s' => if ascii_isspace c then ascii_lstrip s' else s
  end.

Fixpoint ascii_rstrip (s : string) : string :=
  match s with
  | EmptyString => EmptyString
  | String c s' =>
      match ascii_rstrip s' with
      | EmptyString => if ascii_isspace c then EmptyString else String c EmptyString
      | t => String c t
      end
  end.

Definition ascii_strip (s : string) : string := ascii_rstrip (ascii_lstrip s).

Definition ascii_lower_char (c : ascii) : ascii :=
  let n := nat_of_ascii c in
  if ((65 <=? n) && (n <=? 90))%nat then ascii_of_nat (n + 32) else c.

Fixpoint ascii_lower (s : string) : string :=
  match s with
  | EmptyString => EmptyString
  | String c s' => String (ascii_lower_char c) (ascii_lower s')
  end.

(** A header as a spreadsheet export writes it, and three records: a full
    one, one with a blank URL and a short line. *)
Definition sample_fieldnames : option (list string) :=
  Some [" URL"; "Langs "; "STATUS"].

Definition sample_records : list (str_dict cell) :=
  [ [(" URL", Text " https://ok.test "); ("Langs ", Text "en"); ("STATUS", Text "")];
    [(" URL", Text "   "); ("Langs ", NoneValue); ("STATUS", NoneValue)];
    [(" URL", Text "https://broken.test"); ("Langs ", Text ""); ("STATUS", Text " x")] ].

Definition short_record : str_dict cell :=
  [(" URL", Text "https://ok.test"); ("Langs ", NoneValue); ("STATUS", NoneValue)].

(** The record has [None] under the header that [key_norm] stands for. *)
Definition none_under (hm : str_dict string) (r : str_dict cell)
    (key_norm : string) : Prop :=
  exists orig, str_get key_norm hm = Some orig /\ orig <> "" /\
               str_get orig r = Some NoneValue.

(** No value of the record is [None]. *)
Definition all_text (r : str_dict cell) : Prop :=
  Forall (fun kv => snd kv <> NoneValue) r.

(** ** The schedule and the output *)

(** The futures a schedule lets [as_completed] yield, in that order. *)
Definition yields (sched : list action) : list future :=
  flat_map (fun a => match a with
                     | Yield f => [f]
                     | _ => []
                     end) sched.

(** The same futures with the rows they were submitted for. *)
Definition yielded (rows : list row) (sched : list action)
    : list (future * row) :=
  flat_map (fun f => match lookup f (enumerate rows) with
                     | Some r => [(f, r)]
                     | None => []
                     end) (yields sched).

(** The console line of a result row. *)
Definition line_of_result (r : result_row) : string :=
  emoji_for_status (ResponseCode r) ++ " " ++ out_URL r ++ " -> "
  ++ color_for_status (ResponseCode r).

(** The finished future of the row [r] submitted as [f]. *)
Definition probe_of (net : future -> transport) (fr : future * row)
    : future * result outcome :=
  (fst fr, task net (fst fr) (URL (snd fr))).

(** ** The reader as the loop sees it *)

(** What [csv.DictReader] does with the open file: reading the header for
    [reader.fieldnames] raises ([UnicodeDecodeError], [csv.Error]), or it
    gives the header, and [for row in reader] then yields the records and
    ends, either at the end of the file or with an exception of the reader. *)
Inductive reader : Type :=
| HeaderFails (e : exn)
| Delivers (fieldnames : option (list string))
    (records : list (str_dict cell)) (ending : option exn).

(** The rows [check_urls] builds from the reader, or the exception that ends
    the [with open(...)] block: one of the reader, or one of the loop body. *)
Definition read_reader (strip lower : string -> string) (rd : reader)
    : result (list row) :=
  match rd with
  | HeaderFails e => Raise e
  | Delivers fieldnames records ending =>
      match for_each (read_row strip (header_map strip lower fieldnames))
              records [] with
      | (Ok _, rows) =>
          match ending with
          | None => Ok rows
          | Some e => Raise e
          end
      | (Raise e, _) => Raise e
      end
  end.

(** What the reader raises on a file that is not UTF-8. *)
Definition UnicodeDecodeError : exn := OtherException "UnicodeDecodeError".

(** ** Exceptions outside [Exception] *)

(** [exn] holds the instances of [Exception].  Python keeps three classes of
    [BaseException] outside [Exception]; a call can end with one of them too,
    and the executor stores it in the future like any other exception. *)
Inductive system_exit : Type :=
| KeyboardInterrupt
| SystemExit
| GeneratorExit.

(** Whatever can be raised. *)
Inductive base_exception : Type :=
| AnException (e : exn)
| NotAnException (b : system_exit).

(** [isinstance(b, Exception)], the test of [except Exception]. *)
Definition except_Exception (b : base_exception) : bool :=
  match b with
  | AnException e => isinstance_Exception e
  | NotAnException _ => false
  end.

(** The executor block with calls that may end outside [Exception]:
    [interrupted] are the futures that hold such an exception, [escaped] is
    the one that has left [check_urls]. *)
Record xstate : Type := mk_xstate {
  base : state;
  interrupted : list (future * system_exit);
  escaped : option system_exit
}.

Inductive event : Type :=
| Act (a : action)
    (** what the scheduler could let happen before *)
| Interrupt (f : future) (b : system_exit).
    (** the call that runs [f] ends with [b] *)
Arguments Interrupt f%_nat b.

Definition xinitial (rows : list row) : xstate :=
  mk_xstate (initial rows) [] None.

Section Interrupts.

Variable max_workers : nat.
Variable net : future -> transport.

(** One iteration of the loop for [f], with [res] what [fut.result()] gives. *)
Definition yield_with (s : state) (pending : list future) (f : future)
    (res : result outcome) : state :=
  match loop_body (future_map s) f res (vars s) with
  | (Ok _, l) =>
      mk_state (Collecting (discard id f pending)) l (future_map s)
        (work_queue s) (in_flight s) (finished s)
  | (Raise e, l) =>
      mk_state (Propagating e) l (future_map s) (work_queue s) (in_flight s)
        (finished s)
  end.

Definition xstep (ev : event) (x : xstate) : option xstate :=
  match ev with
  | Interrupt f b =>
      match lookup f (in_flight (base x)) with
      | Some _ =>
          let s := base x in
          Some (mk_xstate
                  (mk_state (main s) (vars s) (future_map s) (work_queue s)
                     (discard fst f (in_flight s)) (finished s))
                  (interrupted x ++ [(f, b)]) (escaped x))
      | None => None
      end
  | Act (Yield f) =>
      match escaped x, lookup f (interrupted x) with
      | Some _, _ => None
      | None, Some b =>
          (* try: code = fut.result()  except Exception: code = "ERROR" *)
          match main (base x) with
          | Collecting pending =>
              if existsb (Nat.eqb f) pending then
                if except_Exception (NotAnException b)
                then Some (mk_xstate (yield_with (base x) pending f (Ok ERROR))
                             (interrupted x) None)
                else Some (mk_xstate (base x) (interrupted x) (Some b))
              else None
          | _ => None
          end
      | None, None =>
          option_map (fun s => mk_xstate s (interrupted x) None)
            (step max_workers net (Yield f) (base x))
      end
  | Act Main =>
      match escaped x with
      | Some _ => None
      | None =>
          option_map (fun s => mk_xstate s (interrupted x) None)
            (step max_workers net Main (base x))
      end
  | Act a =>
      (* the workers go on whatever the main thread does *)
      option_map (fun s => mk_xstate s (interrupted x) (escaped x))
        (step max_workers net a (base x))
  end.

Fixpoint xexec (events : list event) (x : xstate) : option xstate :=
  match events with
  | [] => Some x
  | ev :: events' =>
      match xstep ev x with
      | Some x' => xexec events' x'
      | None => None
      end
  end.

End Interrupts.

(** [s] with [fin] as its finished futures. *)
Definition set_finished (fin : list (future * result outcome)) (s : state)
    : state :=
  mk_state (main s) (vars s) (future_map s) (work_queue s) (in_flight s) fin.

(** [fin] holds what the finished futures of [x] hold, and for the
    interrupted ones whatever else. *)
Definition agrees_off_interrupted (x : xstate)
    (fin : list (future * result outcome)) : Prop :=
  forall g, lookup g (interrupted x) = None ->
            lookup g fin = lookup g (finished (base x)).

(** A run on [sample_rows] in which the call of the second row ends with
    [KeyboardInterrupt] after the first row has been collected. *)
Definition interrupt_events : list event :=
  [ Act Main; Act Main; Act Start; Act Start; Interrupt 1 KeyboardInterrupt;
    Act Main; Act Main; Act Main; Act (Finish 0); Act (Yield 0);
    Act (Yield 1) ].

(** * Theorems *)

(** ** The probe *)

Ltac run_probe :=
  unfold head_call, get_call in *;
  unfold fetch_status, try_except, bind, requests_head, requests_get,
    request, ret;
  cbn [app fst snd].

Lemma geb_400_true (c : Z) : 400 <= c -> (c >=? 400) = true.
Proof. intros H. rewrite Z.geb_leb. apply Z.leb_le. exact H. Qed.

Lemma geb_400_false (c : Z) : c < 400 -> (c >=? 400) = false.
Proof. intros H. rewrite Z.geb_leb. apply Z.leb_gt. exact H. Qed.

(** What [fetch_status] does when HEAD answers below 400. *)
Lemma fetch_status_head_final (requests : transport) (url : string)
    (r : Response) :
  requests (head_call url) = Ok r ->
  status_code r < 400 ->
  fetch_status requests url [] = (Ok (Code (status_code r)), [head_call url]).
Proof.
  intros Hhead Hlt. run_probe.
  rewrite Hhead, (geb_400_false _ Hlt). reflexivity.
Qed.

(** What [fetch_status] does when HEAD answers 400 or more: the outcome is
    that of the GET. *)
Lemma fetch_status_escalates (requests : transport) (url : string)
    (r : Response) :
  requests (head_call url) = Ok r ->
  400 <= status_code r ->
  fetch_status requests url [] =
    (match requests (get_call url) with
     | Ok r' => Ok (Code (status_code r'))
     | Raise e => if isinstance_RequestException e then Ok ERROR else Raise e
     end,
     [head_call url; get_call url]).
Proof.
  intros Hhead Hge. run_probe.
  rewrite Hhead, (geb_400_true _ Hge).
  destruct (requests (mk_call GET url true TIMEOUT)) as [r'|e]; [reflexivity|].
  destruct (isinstance_RequestException e); reflexivity.
Qed.

(** What [fetch_status] does when HEAD raises. *)
Lemma fetch_status_head_raises (requests : transport) (url : string)
    (e : exn) :
  requests (head_call url) = Raise e ->
  fetch_status requests url [] =
    (if isinstance_RequestException e then Ok ERROR else Raise e,
     [head_call url]).
Proof.
  intros Hhead. run_probe. rewrite Hhead.
  destruct (isinstance_RequestException e); reflexivity.
Qed.

(** C2: when the transport raises a [RequestException] on the HEAD stage, or on
    the GET stage that follows a HEAD status of 400 or more, [fetch_status]
    returns the ERROR marker instead of raising, and the stage that raised is
    the last call made in both cases. *)
Theorem fetch_status_transport_failure (requests : transport) (url : string) :
  (exists sub, requests (head_call url) = Raise (RequestException sub)) \/
  (exists r sub, requests (head_call url) = Ok r /\ 400 <= status_code r /\
                 requests (get_call url) = Raise (RequestException sub)) ->
  fst (fetch_status requests url []) = Ok ERROR /\
  exists before stage,
    snd (fetch_status requests url []) = (before ++ [stage])%list /\
    (exists sub, requests stage = Raise (RequestException sub)) /\
    Forall (fun c => exists r, requests c = Ok r) before.
Proof.
  intros [[sub Hhead] | (r & sub & Hhead & Hge & Hget)].
  - rewrite (fetch_status_head_raises _ _ _ Hhead). cbn. split; [reflexivity|].
    exists [], (head_call url). repeat split; eauto.
  - rewrite (fetch_status_escalates _ _ _ Hhead Hge), Hget. cbn.
    split; [reflexivity|].
    exists [head_call url], (get_call url). repeat split; eauto.
Qed.

Lemma fetch_status_transport_failure_witness :
  fst (fetch_status mock "https://broken.test" []) = Ok ERROR /\
  exists before stage,
    snd (fetch_status mock "https://broken.test" []) = (before ++ [stage])%list /\
    (exists sub, mock stage = Raise (RequestException sub)) /\
    Forall (fun c => exists r, mock c = Ok r) before.
Proof.
  apply (fetch_status_transport_failure mock "https://broken.test").
  left. exists Timeout. reflexivity.
Defined.

(** C4: when HEAD answers with a status below 400, [fetch_status] returns that
    status and the HEAD is the only call it makes: no GET is issued. *)
Theorem fetch_status_head_below_400 (requests : transport) (url : string)
    (r : Response) :
  requests (head_call url) = Ok r ->
  status_code r < 400 ->
  fetch_status requests url [] = (Ok (Code (status_code r)), [head_call url]) /\
  ~ get_invoked (snd (fetch_status requests url [])).
Proof.
  intros Hhead Hlt.
  rewrite (fetch_status_head_final _ _ _ Hhead Hlt). split; [reflexivity|].
  intros (c & [Hc | []] & Hget). subst c. discriminate Hget.
Qed.

Lemma fetch_status_head_below_400_witness :
  fetch_status mock "https://ok.test" [] =
    (Ok (Code 200), [head_call "https://ok.test"]) /\
  ~ get_invoked (snd (fetch_status mock "https://ok.test" [])).
Proof.
  apply (fetch_status_head_below_400 mock "https://ok.test" (mk_response 200)).
  - reflexivity.
  - cbn. lia.
Defined.

(** C5: when HEAD answers with a status of 400 or more and the GET that follows
    answers with a status, [fetch_status] returns the status of the GET,
    whatever the HEAD status was. *)
Theorem fetch_status_get_status_wins (requests : transport) (url : string)
    (r r' : Response) :
  requests (head_call url) = Ok r ->
  400 <= status_code r ->
  requests (get_call url) = Ok r' ->
  fetch_status requests url [] =
    (Ok (Code (status_code r')), [head_call url; get_call url]).
Proof.
  intros Hhead Hge Hget.
  rewrite (fetch_status_escalates _ _ _ Hhead Hge), Hget. reflexivity.
Qed.

Lemma fetch_status_get_status_wins_witness :
  fetch_status mock "https://gone.test" [] =
    (Ok (Code 410),
     [head_call "https://gone.test"; get_call "https://gone.test"]).
Proof.
  apply (fetch_status_get_status_wins mock "https://gone.test"
           (mk_response 404) (mk_response 410)).
  - reflexivity.
  - cbn. lia.
  - reflexivity.
Defined.

(** C6: a HEAD that the target declines (405 or 501) is followed by a GET whose
    status is the result; a GET is issued exactly when HEAD answered with a
    status of 400 or more; a HEAD that times out gives the ERROR marker with no
    GET. *)
Theorem fetch_status_escalation_policy (requests : transport) (url : string) :
  (forall r r',
      requests (head_call url) = Ok r -> head_rejected r ->
      requests (get_call url) = Ok r' ->
      fetch_status requests url [] =
        (Ok (Code (status_code r')), [head_call url; get_call url])) /\
  (get_invoked (snd (fetch_status requests url [])) <->
   exists r, requests (head_call url) = Ok r /\ 400 <= status_code r) /\
  (requests (head_call url) = Raise (RequestException Timeout) ->
   fetch_status requests url [] = (Ok ERROR, [head_call url])).
Proof.
  split; [|split].
  - intros r r' Hhead Hrej Hget.
    assert (Hge : 400 <= status_code r) by (destruct Hrej; lia).
    rewrite (fetch_status_escalates _ _ _ Hhead Hge), Hget. reflexivity.
  - destruct (requests (head_call url)) as [r|e] eqn:Hhead.
    + destruct (Z_lt_ge_dec (status_code r) 400) as [Hlt|Hge].
      * rewrite (fetch_status_head_final _ _ _ Hhead Hlt). cbn. split.
        -- intros (c & [Hc | []] & Hm). subst c. discriminate Hm.
        -- intros (r0 & Hr0 & Hge). injection Hr0 as <-. lia.
      * assert (Hge' : 400 <= status_code r) by lia.
        rewrite (fetch_status_escalates _ _ _ Hhead Hge'). cbn. split.
        -- intros _. exists r. split; [reflexivity | exact Hge'].
        -- intros _. exists (get_call url). split; [right; left|]; reflexivity.
    + rewrite (fetch_status_head_raises _ _ _ Hhead). cbn. split.
      * intros (c & [Hc | []] & Hm). subst c. discriminate Hm.
      * intros (r0 & Hr0 & _). discriminate Hr0.
  - intros Hhead. rewrite (fetch_status_head_raises _ _ _ Hhead). reflexivity.
Qed.

Lemma fetch_status_escalation_policy_witness :
  fetch_status mock "https://nohead.test" [] =
    (Ok (Code 200),
     [head_call "https://nohead.test"; get_call "https://nohead.test"]) /\
  get_invoked (snd (fetch_status mock "https://nohead.test" [])) /\
  fetch_status mock "https://broken.test" [] =
    (Ok ERROR, [head_call "https://broken.test"]).
Proof.
  destruct (fetch_status_escalation_policy mock "https://nohead.test")
    as (Hrej & Hiff & _).
  destruct (fetch_status_escalation_policy mock "https://broken.test")
    as (_ & _ & Htimeout).
  split; [|split].
  - apply (Hrej (mk_response 405) (mk_response 200)).
    + reflexivity.
    + left. reflexivity.
    + reflexivity.
  - apply Hiff. exists (mk_response 405). split; [reflexivity | cbn; lia].
  - apply Htimeout. reflexivity.
Defined.

(** ** Console classification *)

Lemma category_emoji_inj (c1 c2 : category) :
  category_emoji c1 = category_emoji c2 -> c1 = c2.
Proof. destruct c1, c2; cbn; intros H; solve [reflexivity | discriminate H]. Qed.

Lemma category_color_inj (c1 c2 : category) (t1 t2 : string) :
  category_color c1 ++ t1 = category_color c2 ++ t2 -> c1 = c2.
Proof. destruct c1, c2; cbn; intros H; solve [reflexivity | discriminate H]. Qed.

Lemma range_closed (lo hi c : Z) :
  (lo <=? c) && (c <=? hi) = (lo <=? c) && (c <? hi + 1).
Proof.
  destruct (Z.leb_spec lo c), (Z.leb_spec c hi), (Z.ltb_spec c (hi + 1));
    cbn; solve [reflexivity | lia].
Qed.

(** C10: [emoji_for_status] and [color_for_status] both sort an outcome into the
    category the ranges 200-299, 300-399, 400-599 and "everything else" give
    it, the four categories have four different emoji and four different
    colours, and an integer outside [200, 600) is shown exactly as the ERROR
    marker is. *)
Theorem display_categories_agree (code : outcome) :
  emoji_for_status code = category_emoji (spec_category code) /\
  color_for_status code =
    category_color (spec_category code) ++ category_text code
      ++ Style.RESET_ALL /\
  (forall other,
      emoji_for_status code = emoji_for_status other <->
      spec_category code = spec_category other) /\
  (forall cat rest,
      color_for_status code = category_color cat ++ rest ->
      cat = spec_category code) /\
  (forall c, code = Code c -> ~ (200 <= c < 600) ->
             spec_category code = Unknown /\
             emoji_for_status code = emoji_for_status ERROR /\
             color_for_status code = color_for_status ERROR).
Proof.
  assert (Hemoji : forall o, emoji_for_status o = category_emoji (spec_category o)).
  { intros [c|]; [|reflexivity]. unfold emoji_for_status, spec_category.
    rewrite !range_closed. cbn [Z.add Pos.add Pos.succ].
    destruct ((200 <=? c) && (c <? 300)); [reflexivity|].
    destruct ((300 <=? c) && (c <? 400)); [reflexivity|].
    destruct ((400 <=? c) && (c <? 600)); reflexivity. }
  assert (Hcolor : forall o, color_for_status o =
            category_color (spec_category o) ++ category_text o
              ++ Style.RESET_ALL).
  { intros [c|]; [|reflexivity].
    unfold color_for_status, category_text, spec_category.
    rewrite !range_closed. cbn [Z.add Pos.add Pos.succ].
    destruct ((200 <=? c) && (c <? 300)); [reflexivity|].
    destruct ((300 <=? c) && (c <? 400)); [reflexivity|].
    destruct ((400 <=? c) && (c <? 600)); reflexivity. }
  split; [apply Hemoji|]. split; [apply Hcolor|]. split; [|split].
  - intros other. rewrite !Hemoji. split.
    + apply category_emoji_inj.
    + intros ->. reflexivity.
  - intros cat rest Heq. rewrite Hcolor in Heq.
    symmetry. exact (category_color_inj _ _ _ _ Heq).
  - intros c -> Hout.
    assert (Hcat : spec_category (Code c) = Unknown).
    { unfold spec_category.
      destruct (Z.leb_spec 200 c), (Z.leb_spec c 299), (Z.leb_spec 300 c),
        (Z.leb_spec c 399), (Z.leb_spec 400 c), (Z.leb_spec c 599);
        cbn; solve [reflexivity | lia]. }
    split; [exact Hcat|]. split.
    + rewrite !Hemoji, Hcat. reflexivity.
    + unfold color_for_status.
      destruct (Z.leb_spec 200 c), (Z.ltb_spec c 300), (Z.leb_spec 300 c),
        (Z.ltb_spec c 400), (Z.leb_spec 400 c), (Z.ltb_spec c 600);
        cbn [andb]; solve [reflexivity | lia].
Qed.

Lemma display_categories_agree_witness :
  spec_category (Code 100) = Unknown /\
  emoji_for_status (Code 100) = emoji_for_status ERROR /\
  color_for_status (Code 100) = color_for_status ERROR.
Proof.
  apply (proj2 (proj2 (proj2 (proj2 (display_categories_agree (Code 100))))) 100).
  - reflexivity.
  - lia.
Defined.

(** ** Lists keyed by a future *)

Section KeyedFacts.

Context {A : Type} (key : A -> future).

Lemma filter_drops (p : A -> bool) (a : A) (l : list A) :
  In a l -> p a = false -> (length (filter p l) < length l)%nat.
Proof.
  induction l as [|x l IH]; intros Hin Hp; [destruct Hin|].
  cbn. destruct Hin as [-> | Hin].
  - rewrite Hp. pose proof (filter_length_le p l). lia.
  - specialize (IH Hin Hp). destruct (p x); cbn; lia.
Qed.

Lemma discard_In (k : future) (a : A) (l : list A) :
  In a (discard key k l) -> In a l.
Proof. unfold discard. intros H. apply filter_In in H. apply H. Qed.

Lemma discard_notin (k : future) (l : list A) :
  ~ In k (map key l) -> discard key k l = l.
Proof.
  induction l as [|x l IH]; intros Hnot; [reflexivity|].
  cbn in *. destruct (Nat.eqb_spec (key x) k) as [Heq | Hne].
  - exfalso. apply Hnot. left. exact Heq.
  - cbn. f_equal. apply IH. intros Hin. apply Hnot. right. exact Hin.
Qed.

Lemma discard_perm (a : A) (l : list A) :
  NoDup (map key l) -> In a l ->
  Permutation l (a :: discard key (key a) l).
Proof.
  induction l as [|x l IH]; intros Hnd Hin; [destruct Hin|].
  cbn in Hnd. inversion Hnd as [|? ? Hx Hnd']; subst.
  destruct Hin as [-> | Hin].
  - cbn. rewrite Nat.eqb_refl. cbn.
    fold (discard key (key a) l). rewrite (discard_notin _ _ Hx).
    reflexivity.
  - cbn. destruct (Nat.eqb_spec (key x) (key a)) as [Heq | Hne].
    + exfalso. apply Hx. rewrite Heq. apply in_map. exact Hin.
    + cbn. fold (discard key (key a) l).
      rewrite (IH Hnd' Hin) at 1. apply perm_swap.
Qed.

Lemma map_discard (k : future) (l : list A) :
  map key (discard key k l) = discard id k (map key l).
Proof.
  induction l as [|x l IH]; [reflexivity|].
  cbn. unfold id at 1. destruct (key x =? k)%nat; cbn; [|f_equal]; exact IH.
Qed.

Lemma discard_length (k : future) (a : A) (l : list A) :
  In a l -> key a = k -> (length (discard key k l) < length l)%nat.
Proof.
  intros Hin Hk. apply (filter_drops _ a); [exact Hin|].
  rewrite Hk, Nat.eqb_refl. reflexivity.
Qed.

End KeyedFacts.

Section DictFacts.

Context {V : Type}.
Implicit Types (d : list (future * V)) (k : future) (v : V).

Lemma lookup_In d k v : lookup k d = Some v -> In (k, v) d.
Proof.
  unfold lookup, find_key. intros H.
  destruct (find _ d) as [[k' v']|] eqn:Hfind; [|discriminate H].
  apply find_some in Hfind. destruct Hfind as [Hin Heq].
  cbn in *. injection H as <-. apply Nat.eqb_eq in Heq. subst k'. exact Hin.
Qed.

Lemma In_lookup d k : In k (keys d) -> exists v, lookup k d = Some v.
Proof.
  unfold lookup, find_key, keys.
  induction d as [|[k' v'] d IH]; intros Hin; [destruct Hin|].
  cbn. destruct (Nat.eqb_spec k' k) as [Heq | Hne].
  - exists v'. reflexivity.
  - destruct Hin as [Heq | Hin]; [contradiction|]. apply IH. exact Hin.
Qed.

Lemma NoDup_lookup d k v :
  NoDup (keys d) -> In (k, v) d -> lookup k d = Some v.
Proof.
  unfold lookup, find_key, keys.
  induction d as [|[k' v'] d IH]; intros Hnd Hin; [destruct Hin|].
  cbn in *. inversion Hnd as [|? ? Hk Hnd']; subst.
  destruct Hin as [Heq | Hin].
  - injection Heq as -> ->. rewrite Nat.eqb_refl. reflexivity.
  - destruct (Nat.eqb_spec k' k) as [Heq | Hne].
    + exfalso. apply Hk. subst k'.
      change k with (fst (k, v)). apply in_map. exact Hin.
    + apply IH; assumption.
Qed.

Lemma In_keys d k v : In (k, v) d -> In k (keys d).
Proof. intros H. change k with (fst (k, v)). apply in_map. exact H. Qed.

End DictFacts.

Lemma existsb_In (f : future) (l : list future) :
  existsb (Nat.eqb f) l = true -> In f l.
Proof.
  intros H. apply existsb_exists in H. destruct H as (g & Hin & Heq).
  apply Nat.eqb_eq in Heq. subst g. exact Hin.
Qed.

Lemma keys_enumerate (d : list (future * row)) (rows : list row) :
  keys d = seq 0 (length d) -> map snd d = rows -> d = enumerate rows.
Proof.
  intros Hk Hr. unfold enumerate. subst rows. rewrite length_map, <- Hk.
  unfold keys. clear Hk. induction d as [|[k v] d IH]; [reflexivity|].
  cbn. f_equal. exact IH.
Qed.

(** ** The collecting loop *)

Lemma loop_body_found (fm : list (future * row)) (f : future) (r : row)
    (res : result outcome) (l : locals) :
  lookup f fm = Some r ->
  loop_body fm f res l =
    (Ok tt,
     mk_locals
       (console l ++ [emoji_for_status (code_of res) ++ " " ++ URL r ++ " -> "
                      ++ color_for_status (code_of res)])
       (results l ++ [mk_result_row (URL r) (Langs r) (code_of res) (Status r)])).
Proof.
  intros Hfm. unfold loop_body, dict_get, bind. rewrite Hfm.
  destruct res; reflexivity.
Qed.

(** ** The invariant *)

Section Invariant.

Variable max_workers : nat.
Variable net : future -> transport.
Variable rows : list row.

Lemma invariant_initial : invariant max_workers net rows (initial rows).
Proof.
  constructor; cbn; try reflexivity.
  - intros f url [].
  - intros f res [].
  - lia.
Qed.

Lemma invariant_NoDup (s : state) : invariant max_workers net rows s -> NoDup (keys (future_map s)).
Proof. intros H. rewrite (inv_keys _ _ _ _ H). apply seq_NoDup. Qed.

Lemma invariant_start (s s' : state) :
  invariant max_workers net rows s -> step max_workers net Start s = Some s' -> invariant max_workers net rows s'.
Proof.
  intros H Hstep. destruct s as [m v fm q i fin].
  unfold step in Hstep.
  cbn [main vars future_map work_queue in_flight finished] in Hstep.
  destruct q as [|w q]; [discriminate Hstep|].
  destruct (Nat.ltb_spec (length i) max_workers) as [Hlt|]; [|discriminate Hstep].
  injection Hstep as <-. destruct H as [Hk Hr Ht Hu Hf Hb Hm]. cbn in *.
  constructor; cbn; try assumption.
  - rewrite Ht. unfold keys. rewrite map_app. cbn.
    rewrite <- app_assoc. cbn. rewrite !app_assoc. apply Permutation_middle.
  - intros f url Hin. apply (Hu f url).
    rewrite in_app_iff in Hin. rewrite in_app_iff in Hin.
    cbn. destruct Hin as [Hin | [Hin | [Hin | []]]].
    + right. apply in_or_app. left. exact Hin.
    + right. apply in_or_app. right. exact Hin.
    + left. exact Hin.
  - rewrite length_app. cbn. lia.
  - destruct m as [todo | pending | written | e]; try assumption.
    destruct Hm as (_ & _ & Hq & _). discriminate Hq.
Qed.

Lemma invariant_finish (f : future) (s s' : state) :
  invariant max_workers net rows s -> step max_workers net (Finish f) s = Some s' -> invariant max_workers net rows s'.
Proof.
  intros H Hstep. pose proof (invariant_NoDup _ H) as Hnd.
  destruct s as [m v fm q i fin]. unfold step in Hstep.
  cbn [main vars future_map work_queue in_flight finished] in Hstep.
  destruct (lookup f i) as [url|] eqn:Hlook; [|discriminate Hstep].
  injection Hstep as <-. destruct H as [Hk Hr Ht Hu Hf Hb Hm]. cbn in *.
  apply lookup_In in Hlook.
  assert (Hndi : NoDup (keys i)).
  { rewrite Ht in Hnd. apply NoDup_app_remove_l in Hnd.
    apply NoDup_app_remove_r in Hnd. exact Hnd. }
  constructor; cbn; try assumption.
  - rewrite Ht. unfold keys. rewrite map_app. cbn.
    rewrite (Permutation_map fst (discard_perm fst (f, url) i Hndi Hlook)) at 1.
    cbn. apply Permutation_app_head.
    rewrite app_assoc. apply (Permutation_cons_app _ _ f).
    rewrite app_nil_r. reflexivity.
  - intros g u Hin. apply (Hu g u).
    rewrite in_app_iff in *. destruct Hin as [Hin | Hin]; [left; exact Hin|].
    right. exact (discard_In _ _ _ _ Hin).
  - intros g res Hin. rewrite in_app_iff in Hin.
    destruct Hin as [Hin | [Heq | []]]; [exact (Hf g res Hin)|].
    injection Heq as <- <-.
    destruct (Hu f url) as (r & Hr' & ->); [apply in_or_app; right; exact Hlook|].
    exists r. split; [exact Hr' | reflexivity].
  - unfold discard. eapply Nat.le_trans; [apply filter_length_le | exact Hb].
  - destruct m as [todo | pending | written | e]; try assumption.
    + destruct Hm as (done & rest & Hp & Hpend & Hres & Hincl).
      exists done, rest. repeat split; try assumption.
      unfold keys. rewrite map_app. apply incl_appl. exact Hincl.
    + destruct Hm as (_ & _ & _ & Hi). subst i. destruct Hlook.
Qed.

Lemma invariant_main (s s' : state) :
  invariant max_workers net rows s ->
  step max_workers net Main s = Some s' ->
  invariant max_workers net rows s'.
Proof.
  intros H Hstep. destruct s as [m v fm q i fin]. unfold step in Hstep.
  cbn [main vars future_map work_queue in_flight finished] in Hstep.
  destruct H as [Hk Hr Ht Hu Hf Hb Hm]. cbn in Hk, Hr, Ht, Hu, Hf, Hb, Hm.
  destruct m as [[|r todo] | [|f pending] | written | e]; try discriminate Hstep.
  - (* as_completed(future_map) *)
    injection Hstep as <-. constructor; cbn; try assumption.
    + rewrite app_nil_r in Hr. exact Hr.
    + exists [], fm. split; [|split; [|split]].
      * reflexivity.
      * reflexivity.
      * exact Hm.
      * intros x [].
  - (* executor.submit *)
    injection Hstep as <-. constructor; cbn; try assumption.
    + unfold keys in *. rewrite map_app, length_app. cbn.
      rewrite Nat.add_1_r, seq_S. cbn. f_equal. exact Hk.
    + rewrite map_app. cbn. rewrite <- app_assoc. exact Hr.
    + unfold keys in *. rewrite !map_app. cbn. rewrite Ht.
      rewrite <- !app_assoc. apply Permutation_app_head. cbn.
      rewrite app_assoc. symmetry. apply Permutation_cons_append.
    + intros f url Hin. rewrite <- app_assoc in Hin.
      apply in_app_or in Hin. destruct Hin as [Hin | Hin].
      * destruct (Hu f url) as (r0 & Hr0 & ->); [apply in_or_app; left; exact Hin|].
        exists r0. split; [apply in_or_app; left; exact Hr0 | reflexivity].
      * cbn in Hin. destruct Hin as [Heq | Hin].
        -- injection Heq as <- <-. exists r.
           split; [apply in_or_app; right; left|]; reflexivity.
        -- destruct (Hu f url) as (r0 & Hr0 & ->); [apply in_or_app; right; exact Hin|].
           exists r0. split; [apply in_or_app; left; exact Hr0 | reflexivity].
    + intros f res Hin. destruct (Hf _ _ Hin) as (r0 & Hr0 & ->).
      exists r0. split; [apply in_or_app; left; exact Hr0 | reflexivity].
  - (* executor.shutdown(wait=True) *)
    destruct q; [|discriminate Hstep]. destruct i; [|discriminate Hstep].
    injection Hstep as <-. constructor; cbn; try assumption.
    destruct Hm as (done & rest & Hp & Hpend & Hres & _).
    symmetry in Hpend. apply map_eq_nil in Hpend. subst rest.
    rewrite app_nil_r in Hp. repeat split.
    rewrite Hres. apply Permutation_map. symmetry. exact Hp.
Qed.

Lemma invariant_yield (f : future) (s s' : state) :
  invariant max_workers net rows s ->
  step max_workers net (Yield f) s = Some s' ->
  invariant max_workers net rows s' /\
  exists pending, main s' = Collecting pending.
Proof.
  intros H Hstep. pose proof (invariant_NoDup _ H) as Hnd.
  destruct s as [m v fm q i fin]. unfold step in Hstep.
  cbn [main vars future_map work_queue in_flight finished] in Hstep.
  destruct m as [todo | pending | written | e]; try discriminate Hstep.
  destruct (existsb (Nat.eqb f) pending) eqn:Hex; [|discriminate Hstep].
  apply existsb_In in Hex.
  destruct (lookup f fin) as [res|] eqn:Hfin; [|discriminate Hstep].
  destruct H as [Hk Hr Ht Hu Hf Hb Hm]. cbn in Hk, Hr, Ht, Hu, Hf, Hb, Hm, Hnd.
  destruct Hm as (done & rest & Hp & Hpend & Hres & Hincl). subst pending.
  apply in_map_iff in Hex. destruct Hex as ([f' r] & Heq & Hin).
  cbn in Heq. subst f'.
  assert (Hfm : In (f, r) fm).
  { apply (Permutation_in _ (Permutation_sym Hp)). apply in_or_app.
    right. exact Hin. }
  rewrite (loop_body_found _ _ _ _ _ (NoDup_lookup _ _ _ Hnd Hfm)) in Hstep.
  injection Hstep as <-.
  apply lookup_In in Hfin. destruct (Hf _ _ Hfin) as (r' & Hr' & Hres').
  assert (r' = r) as ->.
  { pose proof (NoDup_lookup _ _ _ Hnd Hfm) as E1.
    pose proof (NoDup_lookup _ _ _ Hnd Hr') as E2. congruence. }
  assert (Hndr : NoDup (keys rest)).
  { unfold keys in *. rewrite (Permutation_map fst Hp), map_app in Hnd.
    apply NoDup_app_remove_l in Hnd. exact Hnd. }
  split; [|eexists; reflexivity].
  constructor; cbn; try assumption.
  exists (done ++ [(f, r)])%list, (discard fst f rest). split; [|split; [|split]].
  - rewrite Hp. rewrite <- app_assoc. apply Permutation_app_head. cbn.
    apply (discard_perm fst (f, r)); assumption.
  - unfold keys. rewrite map_discard. reflexivity.
  - rewrite map_app, Hres. cbn. rewrite Hres'. reflexivity.
  - unfold keys. rewrite map_app. apply incl_app; [exact Hincl|].
    intros x [<- | []]. exact (In_keys _ _ _ Hfin).
Qed.

Lemma invariant_step (a : action) (s s' : state) :
  invariant max_workers net rows s ->
  step max_workers net a s = Some s' ->
  invariant max_workers net rows s'.
Proof.
  destruct a as [| f | | f]; intros H Hstep.
  - exact (invariant_main _ _ H Hstep).
  - exact (proj1 (invariant_yield _ _ _ H Hstep)).
  - exact (invariant_start _ _ H Hstep).
  - exact (invariant_finish _ _ _ H Hstep).
Qed.

Lemma invariant_exec (sched : list action) (s s' : state) :
  invariant max_workers net rows s ->
  exec max_workers net sched s = Some s' ->
  invariant max_workers net rows s'.
Proof.
  revert s. induction sched as [|a sched IH]; intros s H Hexec; cbn in Hexec.
  - injection Hexec as <-. exact H.
  - destruct (step max_workers net a s) as [s1|] eqn:Hstep; [|discriminate Hexec].
    exact (IH s1 (invariant_step _ _ _ H Hstep) Hexec).
Qed.

End Invariant.

(** ** Every run ends *)

Section Liveness.

Variable max_workers : nat.
Variable net : future -> transport.
Variable rows : list row.

Lemma step_measure (a : action) (s s' : state) :
  step max_workers net a s = Some s' -> (measure s' < measure s)%nat.
Proof.
  intros Hstep. destruct s as [m v fm q i fin]. unfold step in Hstep.
  cbn [main vars future_map work_queue in_flight finished] in Hstep.
  destruct a as [| f | | f].
  - destruct m as [[|r todo] | [|f pending] | written | e];
      try discriminate Hstep.
    + injection Hstep as <-. unfold measure, keys. cbn.
      rewrite length_map. lia.
    + injection Hstep as <-. unfold measure. cbn.
      rewrite !length_app. cbn. lia.
    + destruct q; [|discriminate Hstep]. destruct i; [|discriminate Hstep].
      injection Hstep as <-. unfold measure. cbn. lia.
  - destruct m as [todo | pending | written | e]; try discriminate Hstep.
    destruct (existsb (Nat.eqb f) pending) eqn:Hex; [|discriminate Hstep].
    apply existsb_In in Hex.
    destruct (lookup f fin) as [res|]; [|discriminate Hstep].
    destruct (loop_body fm f res v) as [[[]|e] l]; injection Hstep as <-;
      unfold measure; cbn.
    + pose proof (discard_length id f f pending Hex eq_refl). lia.
    + lia.
  - destruct q as [|w q]; [discriminate Hstep|].
    destruct (length i <? max_workers)%nat; [|discriminate Hstep].
    injection Hstep as <-. unfold measure. cbn. rewrite length_app. cbn. lia.
  - destruct (lookup f i) as [url|] eqn:Hlook; [|discriminate Hstep].
    injection Hstep as <-. apply lookup_In in Hlook.
    pose proof (discard_length fst f (f, url) i Hlook eq_refl).
    unfold measure. cbn. lia.
Qed.

Hypothesis workers_positive : (0 < max_workers)%nat.

Lemma worker_can_step (s : state) :
  work_queue s <> [] \/ in_flight s <> [] ->
  exists a s', step max_workers net a s = Some s'.
Proof.
  intros Hbusy. destruct s as [m v fm q i fin]. cbn in Hbusy.
  destruct i as [|[f url] i].
  - destruct q as [|w q]; [destruct Hbusy as [Hq | Hi]; congruence|].
    exists Start. unfold step. cbn [work_queue in_flight length].
    destruct (Nat.ltb_spec 0 max_workers); [eexists; reflexivity | lia].
  - exists (Finish f). unfold step, lookup, find_key. cbn.
    rewrite Nat.eqb_refl. cbn. eexists. reflexivity.
Qed.

Lemma progress (s : state) :
  invariant max_workers net rows s ->
  (exists written, main s = Returned written) \/
  (exists a s', step max_workers net a s = Some s').
Proof.
  intros H. destruct (main s) as [todo | pending | written | e] eqn:Hmain.
  - right. exists Main. unfold step. rewrite Hmain.
    destruct todo; eexists; reflexivity.
  - right.
    destruct (work_queue s) as [|w q] eqn:Hq;
      [|apply worker_can_step; left; congruence].
    destruct (in_flight s) as [|w i] eqn:Hi;
      [|apply worker_can_step; right; congruence].
    destruct pending as [|f pending].
    + exists Main. unfold step. rewrite Hmain, Hq, Hi. eexists. reflexivity.
    + exists (Yield f). unfold step. rewrite Hmain. cbn. rewrite Nat.eqb_refl.
      cbn. pose proof (inv_main _ _ _ _ H) as Hm. rewrite Hmain in Hm.
      destruct Hm as (done & rest & Hp & Hpend & _).
      pose proof (inv_tasks _ _ _ _ H) as Ht. rewrite Hq, Hi in Ht. cbn in Ht.
      assert (Hin : In f (keys (finished s))).
      { apply (Permutation_in _ Ht). unfold keys.
        rewrite (Permutation_map fst Hp), map_app. apply in_or_app. right.
        fold (keys rest). rewrite <- Hpend. left. reflexivity. }
      destruct (In_lookup _ _ Hin) as (res & ->).
      destruct (loop_body (future_map s) f res (vars s)) as [[[]|e] l];
        eexists; reflexivity.
  - left. exists written. reflexivity.
  - pose proof (inv_main _ _ _ _ H) as Hm. rewrite Hmain in Hm. destruct Hm.
Qed.

Lemma run_completes (n : nat) (s : state) :
  (measure s <= n)%nat ->
  invariant max_workers net rows s ->
  exists sched s' written,
    exec max_workers net sched s = Some s' /\ main s' = Returned written.
Proof.
  revert s. induction n as [|n IH]; intros s Hn H;
    destruct (progress s H) as [[written Hret] | (a & s1 & Hstep)].
  - exists [], s, written. split; [reflexivity | exact Hret].
  - pose proof (step_measure _ _ _ Hstep). lia.
  - exists [], s, written. split; [reflexivity | exact Hret].
  - pose proof (step_measure _ _ _ Hstep) as Hlt.
    destruct (IH s1) as (sched & s' & written & Hexec & Hret);
      [lia | exact (invariant_step _ _ _ _ _ _ H Hstep) |].
    exists (a :: sched), s', written. split; [|exact Hret].
    cbn. rewrite Hstep. exact Hexec.
Qed.

End Liveness.

(** ** The dispatcher *)

Lemma map_snd_enumerate (rows : list row) : map snd (enumerate rows) = rows.
Proof.
  unfold enumerate. generalize 0%nat.
  induction rows as [|r rows IH]; intros start; [reflexivity|].
  cbn. f_equal. apply IH.
Qed.

Lemma keys_enumerate_seq (rows : list row) :
  keys (enumerate rows) = seq 0 (length rows).
Proof.
  unfold enumerate, keys. generalize 0%nat.
  induction rows as [|r rows IH]; intros start; [reflexivity|].
  cbn. f_equal. apply IH.
Qed.

Lemma triples_expected (net : future -> transport) (d : list (future * row)) :
  map triple_of_result (map (expected_row net) d) = map triple_of_row (map snd d).
Proof.
  induction d as [|[f r] d IH]; [reflexivity|]. cbn. f_equal. exact IH.
Qed.

Section Runs.

Variable max_workers : nat.
Variable net : future -> transport.
Variable rows : list row.

Lemma run_invariant (sched : list action) (s : state) :
  exec max_workers net sched (initial rows) = Some s ->
  invariant max_workers net rows s.
Proof.
  apply invariant_exec. apply invariant_initial.
Qed.

Lemma run_future_map (sched : list action) (s : state) :
  exec max_workers net sched (initial rows) = Some s ->
  (forall todo, main s <> Submitting todo) ->
  future_map s = enumerate rows.
Proof.
  intros Hrun Hmain. pose proof (run_invariant _ _ Hrun) as H.
  apply keys_enumerate; [exact (inv_keys _ _ _ _ H)|].
  pose proof (inv_rows _ _ _ _ H) as Hr.
  destruct (main s) as [todo | pending | written | e]; try (symmetry; exact Hr).
  exfalso. exact (Hmain todo eq_refl).
Qed.

Lemma run_never_raises (sched : list action) (s : state) (e : exn) :
  exec max_workers net sched (initial rows) = Some s ->
  main s <> Propagating e.
Proof.
  intros Hrun Hmain. pose proof (inv_main _ _ _ _ (run_invariant _ _ Hrun)) as Hm.
  rewrite Hmain in Hm. exact Hm.
Qed.

Lemma run_returned (sched : list action) (s : state)
    (written : list result_row) :
  exec max_workers net sched (initial rows) = Some s ->
  main s = Returned written ->
  Permutation written (map (expected_row net) (enumerate rows)).
Proof.
  intros Hrun Hmain.
  pose proof (inv_main _ _ _ _ (run_invariant _ _ Hrun)) as Hm.
  rewrite <- (run_future_map _ _ Hrun); [|intros todo; congruence].
  rewrite Hmain in Hm. apply Hm.
Qed.

(** Once [as_completed] has yielded every future, no call is queued or
    running: the loop alone is a barrier. *)
Lemma run_loop_exit (sched : list action) (s : state) :
  exec max_workers net sched (initial rows) = Some s ->
  main s = Collecting [] ->
  work_queue s = [] /\ in_flight s = [] /\
  incl (keys (future_map s)) (keys (finished s)) /\
  Permutation (results (vars s)) (map (expected_row net) (enumerate rows)).
Proof.
  intros Hrun Hmain. pose proof (run_invariant _ _ Hrun) as H.
  pose proof (inv_main _ _ _ _ H) as Hm. rewrite Hmain in Hm.
  destruct Hm as (done & rest & Hp & Hpend & Hres & Hincl).
  symmetry in Hpend. apply map_eq_nil in Hpend. subst rest.
  rewrite app_nil_r in Hp.
  assert (Hall : incl (keys (future_map s)) (keys (finished s))).
  { intros f Hf. apply Hincl. unfold keys in *.
    exact (Permutation_in _ (Permutation_map fst Hp) Hf). }
  pose proof (NoDup_incl_length (invariant_NoDup _ _ _ _ H) Hall) as Hle.
  pose proof (Permutation_length (inv_tasks _ _ _ _ H)) as Hlen.
  unfold keys in Hlen, Hle. repeat rewrite length_app in Hlen.
  repeat rewrite length_map in Hlen. repeat rewrite length_map in Hle.
  assert (Hq : length (work_queue s) = 0%nat) by lia.
  assert (Hi : length (in_flight s) = 0%nat) by lia.
  apply length_zero_iff_nil in Hq, Hi. repeat split; try assumption.
  rewrite Hres, <- (run_future_map _ _ Hrun); [|intros todo; congruence].
  apply Permutation_map. symmetry. exact Hp.
Qed.

End Runs.

(** C1: on every list of rows, duplicates included, [check_urls] gets to the
    end of the [with] block under some schedule, and under every schedule that
    gets there the rows written are as many as the input rows and carry the
    same (URL, Langs, Status) triples with the same multiplicities, whatever
    the completion order and whatever the network answers. *)
Theorem check_urls_one_result_per_row (net : future -> transport)
    (rows : list row) :
  (exists sched s written,
      check_urls net rows sched = Some s /\ main s = Returned written) /\
  (forall sched s written,
      check_urls net rows sched = Some s -> main s = Returned written ->
      length written = length rows /\
      Permutation (map triple_of_result written) (map triple_of_row rows)).
Proof.
  split.
  - refine (run_completes MAX_WORKERS net rows _ (measure (initial rows))
              (initial rows) _ _).
    + unfold MAX_WORKERS. lia.
    + apply Nat.le_refl.
    + apply invariant_initial.
  - intros sched s written Hrun Hmain.
    pose proof (run_returned _ _ _ _ _ _ Hrun Hmain) as Hp. split.
    + rewrite (Permutation_length Hp), length_map.
      rewrite <- (map_snd_enumerate rows) at 2. rewrite length_map. reflexivity.
    + rewrite (Permutation_map triple_of_result Hp), triples_expected.
      rewrite map_snd_enumerate. reflexivity.
Qed.

Lemma check_urls_one_result_per_row_witness :
  length (written_rows (check_urls (fun _ => mock) sample_rows sample_schedule))
    = length sample_rows /\
  Permutation
    (map triple_of_result
       (written_rows (check_urls (fun _ => mock) sample_rows sample_schedule)))
    (map triple_of_row sample_rows).
Proof.
  eapply (proj2 (check_urls_one_result_per_row (fun _ => mock) sample_rows)
            sample_schedule).
  - vm_compute. reflexivity.
  - vm_compute. reflexivity.
Defined.

(** On runs in which every call ends as [fetch_status] ends, with a value or
    an instance of [Exception]: no schedule leads to an exception leaving the
    loop, and in every complete run the row of a future whose call raised is
    written with the ERROR marker while every other row carries the outcome
    of its own call. *)
Theorem check_urls_task_exception_is_error (net : future -> transport)
    (rows : list row) (sched : list action) (s : state) :
  check_urls net rows sched = Some s ->
  (forall e, main s <> Propagating e) /\
  (forall written,
      main s = Returned written ->
      Permutation written (map (expected_row net) (enumerate rows)) /\
      forall f r e,
        In (f, r) (enumerate rows) -> task net f (URL r) = Raise e ->
        In (mk_result_row (URL r) (Langs r) ERROR (Status r)) written).
Proof.
  intros Hrun. split.
  - intros e. exact (run_never_raises _ _ _ _ _ e Hrun).
  - intros written Hmain.
    pose proof (run_returned _ _ _ _ _ _ Hrun Hmain) as Hp.
    split; [exact Hp|]. intros f r e Hin Hraise.
    apply (Permutation_in _ (Permutation_sym Hp)).
    apply in_map_iff. exists (f, r). split; [|exact Hin].
    cbn. rewrite Hraise. reflexivity.
Qed.

Lemma check_urls_task_exception_is_error_witness :
  task (fun _ => mock) 2%nat "https://odd.test" = Raise (OtherException "UnicodeError") /\
  In (mk_result_row "https://odd.test" "fr" ERROR "y")
     (written_rows (check_urls (fun _ => mock) sample_rows sample_schedule)).
Proof.
  split; [vm_compute; reflexivity|].
  destruct (check_urls (fun _ => mock) sample_rows sample_schedule)
    as [s|] eqn:Hrun; [|vm_compute in Hrun; discriminate Hrun].
  pose proof Hrun as Hs. vm_compute in Hs. injection Hs as <-.
  destruct (check_urls_task_exception_is_error _ _ _ _ Hrun) as [_ Hwritten].
  destruct (Hwritten _ eq_refl) as [_ Herror].
  apply (Herror 2%nat (mk_row "https://odd.test" "fr" "y")
           (OtherException "UnicodeError")).
  - right. right. left. reflexivity.
  - vm_compute. reflexivity.
Defined.

(** The executor does not start a call while [max_workers] calls are running:
    with two workers and three queued calls the third [Start] is refused, and
    the two running calls are indeed in flight together. *)
Example third_start_waits :
  option_map (fun s => length (in_flight s))
    (exec 2 (fun _ => mock) [Main; Main; Main; Start; Start] (initial sample_rows))
    = Some 2%nat /\
  exec 2 (fun _ => mock) [Main; Main; Main; Start; Start; Start]
    (initial sample_rows) = None.
Proof. split; vm_compute; reflexivity. Qed.

(** C7: in every state of every run, under every schedule and for every list
    of rows, at most [max_workers] calls are in flight; for [check_urls] the
    ceiling is [MAX_WORKERS], which is 50. *)
Theorem at_most_max_workers_in_flight (net : future -> transport)
    (rows : list row) (sched : list action) :
  (forall max_workers s,
      exec max_workers net sched (initial rows) = Some s ->
      (length (in_flight s) <= max_workers)%nat) /\
  (forall s,
      check_urls net rows sched = Some s ->
      (length (in_flight s) <= 50)%nat).
Proof.
  split.
  - intros max_workers s Hrun.
    exact (inv_bound _ _ _ _ (run_invariant _ _ _ _ _ Hrun)).
  - intros s Hrun.
    exact (inv_bound _ _ _ _ (run_invariant _ _ _ _ _ Hrun)).
Qed.

Lemma at_most_max_workers_in_flight_witness :
  (exists s,
      exec 2 (fun _ => mock) [Main; Main; Main; Start; Start]
        (initial sample_rows) = Some s /\
      (length (in_flight s) <= 2)%nat) /\
  (exists s,
      check_urls (fun _ => mock) sample_rows [Main; Main; Main; Start; Start]
        = Some s /\
      (length (in_flight s) <= 50)%nat).
Proof.
  destruct (at_most_max_workers_in_flight (fun _ => mock) sample_rows
              [Main; Main; Main; Start; Start]) as [Hany Hfifty].
  split; eexists; (split; [vm_compute; reflexivity|]).
  - apply Hany. vm_compute. reflexivity.
  - apply Hfifty. vm_compute. reflexivity.
Defined.

(** C8: when the [as_completed] loop has ended, and so when [check_urls] has
    left the [with] block, no call is queued or running, every submitted
    future is finished, and the result list has one row per input row; the
    rows handed to the writer are that complete list. *)
Theorem check_urls_returns_after_all_tasks (net : future -> transport)
    (rows : list row) (sched : list action) (s : state) :
  check_urls net rows sched = Some s ->
  main s = Collecting [] \/ (exists written, main s = Returned written) ->
  work_queue s = [] /\ in_flight s = [] /\
  (forall f, (f < length rows)%nat ->
             exists res, lookup f (finished s) = Some res) /\
  length (results (vars s)) = length rows /\
  (forall written, main s = Returned written -> written = results (vars s)).
Proof.
  intros Hrun Hend. pose proof (run_invariant _ _ _ _ _ Hrun) as H.
  assert (Hfm : future_map s = enumerate rows).
  { apply (run_future_map _ _ _ _ _ Hrun). intros todo Hmain.
    destruct Hend as [Hc | [w Hw]]; congruence. }
  assert (Hlen : forall l, Permutation l (map (expected_row net) (enumerate rows)) ->
                           length l = length rows).
  { intros l Hp. rewrite (Permutation_length Hp), length_map.
    rewrite <- (map_snd_enumerate rows) at 2. rewrite length_map. reflexivity. }
  assert (Hdone : incl (keys (future_map s)) (keys (finished s)) ->
                  forall f, (f < length rows)%nat ->
                            exists res, lookup f (finished s) = Some res).
  { intros Hincl f Hf. apply In_lookup, Hincl.
    rewrite Hfm, keys_enumerate_seq. apply in_seq. lia. }
  destruct Hend as [Hmain | [written Hmain]].
  - destruct (run_loop_exit _ _ _ _ _ Hrun Hmain) as (Hq & Hi & Hincl & Hp).
    repeat split; try assumption.
    + exact (Hdone Hincl).
    + exact (Hlen _ Hp).
    + intros written Hw. congruence.
  - pose proof (inv_main _ _ _ _ H) as Hm. rewrite Hmain in Hm.
    destruct Hm as (Hw & Hp & Hq & Hi).
    pose proof (inv_tasks _ _ _ _ H) as Ht. rewrite Hq, Hi in Ht. cbn in Ht.
    repeat split; try assumption.
    + apply Hdone. intros f Hf. exact (Permutation_in _ Ht Hf).
    + apply Hlen. rewrite <- Hw, <- Hfm. exact Hp.
    + intros written' Hw'. congruence.
Qed.

Lemma check_urls_returns_after_all_tasks_witness :
  exists s,
    check_urls (fun _ => mock) sample_rows sample_schedule = Some s /\
    work_queue s = [] /\ in_flight s = [] /\
    (forall f, (f < length sample_rows)%nat ->
               exists res, lookup f (finished s) = Some res) /\
    length (results (vars s)) = length sample_rows /\
    (forall written, main s = Returned written -> written = results (vars s)).
Proof.
  eexists. split; [vm_compute; reflexivity|].
  apply (check_urls_returns_after_all_tasks (fun _ => mock) sample_rows
           sample_schedule).
  - vm_compute. reflexivity.
  - right. eexists. reflexivity.
Defined.

(** C9: with a static transport, one that answers each call by its method and
    URL alone, any two complete runs of [check_urls] on the same rows write
    the same rows with the same multiplicities, whatever the two schedules. *)
Theorem check_urls_static_transport_same_results (requests : transport)
    (rows : list row) (sched1 sched2 : list action) (s1 s2 : state)
    (written1 written2 : list result_row) :
  check_urls (fun _ => requests) rows sched1 = Some s1 ->
  main s1 = Returned written1 ->
  check_urls (fun _ => requests) rows sched2 = Some s2 ->
  main s2 = Returned written2 ->
  Permutation written1 written2.
Proof.
  intros Hrun1 Hmain1 Hrun2 Hmain2.
  rewrite (run_returned _ _ _ _ _ _ Hrun1 Hmain1).
  symmetry. exact (run_returned _ _ _ _ _ _ Hrun2 Hmain2).
Qed.

Lemma check_urls_static_transport_same_results_witness :
  Permutation
    (written_rows (check_urls (fun _ => mock) sample_rows sample_schedule))
    (written_rows (check_urls (fun _ => mock) sample_rows sample_schedule_fifo)).
Proof.
  eapply (check_urls_static_transport_same_results mock sample_rows
            sample_schedule sample_schedule_fifo).
  - vm_compute. reflexivity.
  - vm_compute. reflexivity.
  - vm_compute. reflexivity.
  - vm_compute. reflexivity.
Defined.

(** The two sample runs write their rows in different orders. *)
Example sample_runs_differ_in_order :
  written_rows (check_urls (fun _ => mock) sample_rows sample_schedule) <>
  written_rows (check_urls (fun _ => mock) sample_rows sample_schedule_fifo).
Proof. vm_compute. discriminate. Qed.

(** ** The examples of the specification *)

(** One reachable URL whose HEAD answers 200. *)
Example example_ok :
  written_rows
    (check_urls (fun _ => mock) [mk_row "https://ok.test" "en" ""]
       [Main; Main; Start; Finish 0; Yield 0; Main])
  = [mk_result_row "https://ok.test" "en" (Code 200) ""].
Proof. vm_compute. reflexivity. Qed.

(** One URL whose HEAD times out. *)
Example example_broken :
  written_rows
    (check_urls (fun _ => mock) [mk_row "https://broken.test" "" "x"]
       [Main; Main; Start; Finish 0; Yield 0; Main])
  = [mk_result_row "https://broken.test" "" ERROR "x"].
Proof. vm_compute. reflexivity. Qed.

(** * Further properties *)

(** ** The probe *)

(** The three ways a probe goes, by what HEAD answers. *)
Lemma fetch_status_cases (requests : transport) (url : string) :
  (exists r, requests (head_call url) = Ok r /\ status_code r < 400 /\
             fetch_status requests url [] =
               (Ok (Code (status_code r)), [head_call url])) \/
  (exists r, requests (head_call url) = Ok r /\ 400 <= status_code r /\
             fetch_status requests url [] =
               (match requests (get_call url) with
                | Ok r' => Ok (Code (status_code r'))
                | Raise e =>
                    if isinstance_RequestException e then Ok ERROR else Raise e
                end, [head_call url; get_call url])) \/
  (exists e, requests (head_call url) = Raise e /\
             fetch_status requests url [] =
               (if isinstance_RequestException e then Ok ERROR else Raise e,
                [head_call url])).
Proof.
  destruct (requests (head_call url)) as [r|e] eqn:Hhead.
  - destruct (Z_lt_ge_dec (status_code r) 400) as [Hlt|Hge].
    + left. exists r. repeat split; [exact Hlt|].
      exact (fetch_status_head_final _ _ _ Hhead Hlt).
    + right. left. exists r. assert (Hge' : 400 <= status_code r) by lia.
      repeat split; [exact Hge'|].
      exact (fetch_status_escalates _ _ _ Hhead Hge').
  - right. right. exists e. split; [reflexivity|].
    exact (fetch_status_head_raises _ _ _ Hhead).
Qed.

(** X1: [fetch_status] raises [e] exactly when [e] is not a
    [RequestException] and the HEAD, or the GET after a HEAD status of 400 or
    more, raised it: such exceptions pass through unchanged and no
    [RequestException] ever leaves the probe. *)
Theorem fetch_status_raises_exactly_foreign (requests : transport)
    (url : string) (e : exn) :
  fst (fetch_status requests url []) = Raise e <->
  isinstance_RequestException e = false /\
  (requests (head_call url) = Raise e \/
   exists r, requests (head_call url) = Ok r /\ 400 <= status_code r /\
             requests (get_call url) = Raise e).
Proof.
  destruct (fetch_status_cases requests url)
    as [(r & Hhead & Hlt & ->) | [(r & Hhead & Hge & ->) | (e0 & Hhead & ->)]];
    cbn [fst]; split.
  - discriminate.
  - intros (_ & [Hr | (r0 & Hr0 & Hge & _)]); [congruence|].
    assert (r0 = r) by congruence. subst r0. lia.
  - destruct (requests (get_call url)) as [r'|e'] eqn:Hget; [discriminate|].
    destruct (isinstance_RequestException e') eqn:Hreq; [discriminate|].
    intros Heq. injection Heq as <-. split; [exact Hreq|].
    right. exists r. repeat split; assumption.
  - intros (Hreq & [Hr | (r0 & _ & _ & Hget)]); [congruence|].
    rewrite Hget, Hreq. reflexivity.
  - destruct (isinstance_RequestException e0) eqn:Hreq; [discriminate|].
    intros Heq. injection Heq as <-. split; [exact Hreq|]. left. exact Hhead.
  - intros (Hreq & [Hr | (r0 & Hr0 & _)]); [|congruence].
    assert (e0 = e) by congruence. subst e0. rewrite Hreq. reflexivity.
Qed.

Lemma fetch_status_raises_exactly_foreign_witness :
  fst (fetch_status mock "https://odd.test" [])
    = Raise (OtherException "UnicodeError").
Proof.
  apply (fetch_status_raises_exactly_foreign mock "https://odd.test").
  split; [reflexivity|]. left. reflexivity.
Defined.

(** X2: whatever the transport does and whatever was logged before, a probe
    adds to the log one HEAD call, or one HEAD call and then one GET call, for
    the URL as given, with redirects allowed and the timeout of [TIMEOUT]
    seconds; its outcome does not depend on the earlier log. *)
Theorem fetch_status_calls (requests : transport) (url : string)
    (log : list call) :
  fetch_status requests url log =
    (fst (fetch_status requests url []),
     (log ++ snd (fetch_status requests url []))%list) /\
  (snd (fetch_status requests url []) = [mk_call HEAD url true 10] \/
   snd (fetch_status requests url []) =
     [mk_call HEAD url true 10; mk_call GET url true 10]).
Proof.
  split.
  - unfold fetch_status, try_except, bind, requests_head, requests_get,
      request, ret. cbn [app].
    destruct (requests (mk_call HEAD url true TIMEOUT)) as [r|e].
    + destruct (status_code r >=? 400).
      * destruct (requests (mk_call GET url true TIMEOUT)) as [r'|e'].
        -- cbn. rewrite <- app_assoc. reflexivity.
        -- destruct (isinstance_RequestException e');
             cbn; rewrite <- app_assoc; reflexivity.
      * reflexivity.
    + destruct (isinstance_RequestException e); reflexivity.
  - destruct (fetch_status_cases requests url)
      as [(r & _ & _ & ->) | [(r & _ & _ & ->) | (e0 & _ & ->)]];
      cbn [snd]; [left | right | left]; reflexivity.
Qed.

(** X3: a status of 400 or more that [fetch_status] returns is always the
    status of the GET: the HEAD status alone is never reported as an error. *)
Theorem fetch_status_error_code_from_get (requests : transport) (url : string)
    (c : Z) :
  fst (fetch_status requests url []) = Ok (Code c) ->
  400 <= c ->
  (exists r', requests (get_call url) = Ok r' /\ status_code r' = c) /\
  snd (fetch_status requests url []) = [head_call url; get_call url].
Proof.
  intros Hres Hc.
  destruct (fetch_status_cases requests url)
    as [(r & Hhead & Hlt & E) | [(r & Hhead & Hge & E) | (e0 & Hhead & E)]];
    rewrite E in *; cbn [fst snd] in *.
  - injection Hres as <-. lia.
  - split; [|reflexivity].
    destruct (requests (get_call url)) as [r'|e'].
    + injection Hres as <-. exists r'. split; reflexivity.
    + destruct (isinstance_RequestException e'); discriminate Hres.
  - destruct (isinstance_RequestException e0); discriminate Hres.
Qed.

Lemma fetch_status_error_code_from_get_witness :
  (exists r', mock (get_call "https://gone.test") = Ok r' /\
              status_code r' = 410) /\
  snd (fetch_status mock "https://gone.test" []) =
    [head_call "https://gone.test"; get_call "https://gone.test"].
Proof.
  apply (fetch_status_error_code_from_get mock "https://gone.test" 410).
  - reflexivity.
  - lia.
Defined.

(** X4: the ERROR marker is returned only when a request raised a
    [RequestException]: no response, whatever its status, is turned into
    ERROR. *)
Theorem fetch_status_error_only_on_request_exception (requests : transport)
    (url : string) :
  fst (fetch_status requests url []) = Ok ERROR ->
  exists stage sub,
    (stage = head_call url \/ stage = get_call url) /\
    In stage (snd (fetch_status requests url [])) /\
    requests stage = Raise (RequestException sub).
Proof.
  intros Hres.
  destruct (fetch_status_cases requests url)
    as [(r & Hhead & Hlt & E) | [(r & Hhead & Hge & E) | (e0 & Hhead & E)]];
    rewrite E in *; cbn [fst snd] in *.
  - discriminate Hres.
  - destruct (requests (get_call url)) as [r'|e'] eqn:Hget; [discriminate Hres|].
    destruct e' as [sub| |name]; cbn in Hres; try discriminate Hres.
    exists (get_call url), sub. repeat split; [right | right; left | ];
      solve [reflexivity | exact Hget].
  - destruct e0 as [sub| |name]; cbn in Hres; try discriminate Hres.
    exists (head_call url), sub. repeat split; [left | left | ];
      solve [reflexivity | exact Hhead].
Qed.

Lemma fetch_status_error_only_on_request_exception_witness :
  exists stage sub,
    (stage = head_call "https://broken.test" \/
     stage = get_call "https://broken.test") /\
    In stage (snd (fetch_status mock "https://broken.test" [])) /\
    mock stage = Raise (RequestException sub).
Proof.
  apply (fetch_status_error_only_on_request_exception mock
           "https://broken.test").
  reflexivity.
Defined.

(** ** Dicts with string keys *)

Lemma str_get_set {V : Type} (k k' : string) (v : V) (d : str_dict V) :
  str_get k (str_set k' v d) = if String.eqb k' k then Some v else str_get k d.
Proof.
  unfold str_get. induction d as [|[k0 v0] d IH]; cbn.
  - destruct (String.eqb k' k); reflexivity.
  - destruct (String.eqb_spec k0 k') as [-> | Hne]; cbn.
    + destruct (String.eqb k' k); reflexivity.
    + destruct (String.eqb_spec k0 k) as [-> | Hne'].
      * destruct (String.eqb_spec k' k) as [-> | _]; [contradiction | reflexivity].
      * exact IH.
Qed.

Lemma find_snoc {A : Type} (p : A -> bool) (l : list A) (a : A) :
  find p (l ++ [a]) =
    match find p l with
    | Some x => Some x
    | None => if p a then Some a else None
    end.
Proof.
  induction l as [|x l IH]; cbn; [reflexivity|].
  destruct (p x); [reflexivity | exact IH].
Qed.

Lemma find_rev_last {A : Type} (p : A -> bool) (l : list A) (a : A) :
  find p (rev l) = Some a <->
  exists before after,
    l = (before ++ a :: after)%list /\ p a = true /\
    Forall (fun x => p x = false) after.
Proof.
  revert a. induction l as [|x l IH]; intros a; cbn.
  - split; [discriminate|]. intros (before & after & Heq & _).
    destruct before; discriminate Heq.
  - rewrite find_snoc. split.
    + destruct (find p (rev l)) as [y|] eqn:Hfind.
      * intros Heq. injection Heq as ->.
        destruct (proj1 (IH a) eq_refl) as (before & after & -> & Hp & Hafter).
        exists (x :: before), after. repeat split; assumption.
      * destruct (p x) eqn:Hpx; [|discriminate]. intros Heq. injection Heq as ->.
        exists [], l. repeat split; [exact Hpx|].
        apply Forall_forall. intros y Hy.
        exact (find_none _ _ Hfind y (proj1 (in_rev l y) Hy)).
    + intros (before & after & Heq & Hp & Hafter).
      destruct before as [|b before]; cbn in Heq; injection Heq as -> ->.
      * assert (Hnone : find p (rev after) = None).
        { destruct (find p (rev after)) as [y|] eqn:Hfind; [|reflexivity].
          apply find_some in Hfind. destruct Hfind as [Hin Hy].
          rewrite Forall_forall in Hafter.
          rewrite (Hafter y (proj2 (in_rev after y) Hin)) in Hy. discriminate Hy. }
        rewrite Hnone, Hp. reflexivity.
      * assert (Hsome : find p (rev (before ++ a :: after)) = Some a).
        { apply IH. exists before, after. repeat split; assumption. }
        rewrite Hsome. reflexivity.
Qed.

(** ** Reading the rows *)

Lemma for_each_app {S A : Type} (body : A -> M S unit) (l1 l2 : list A) (s : S) :
  for_each body (l1 ++ l2) s =
    match for_each body l1 s with
    | (Ok _, s') => for_each body l2 s'
    | (Raise e, s') => (Raise e, s')
    end.
Proof.
  revert s. induction l1 as [|a l1 IH]; intros s; cbn; [reflexivity|].
  unfold bind. destruct (body a s) as [[[]|e] s']; [apply IH | reflexivity].
Qed.

Section ReaderFacts.

Variable strip : string -> string.
Variable lower : string -> string.

Lemma header_map_fold (k : string) (l : list string) (d : str_dict string) :
  str_get k (fold_left (fun d h => str_set (norm strip lower h) h d) l d) =
    match find (fun h => String.eqb (norm strip lower h) k) (rev l) with
    | Some h => Some h
    | None => str_get k d
    end.
Proof.
  revert d. induction l as [|h l IH]; intros d; cbn; [reflexivity|].
  rewrite IH, find_snoc, str_get_set.
  destruct (find _ (rev l)); [reflexivity|].
  destruct (String.eqb (norm strip lower h) k); reflexivity.
Qed.

Lemma header_map_absent (fieldnames : option (list string)) (k : string) :
  (forall h, In h (match fieldnames with Some l => l | None => [] end) ->
             norm strip lower h <> k) ->
  str_get k (header_map strip lower fieldnames) = None.
Proof.
  intros Hno. unfold header_map. rewrite header_map_fold.
  destruct (find _ (rev _)) as [h|] eqn:Hfind; [|reflexivity].
  apply find_some in Hfind. destruct Hfind as [Hin Heq].
  apply String.eqb_eq in Heq. apply in_rev in Hin.
  exfalso. exact (Hno h Hin Heq).
Qed.

(** The value of [getcol] does not depend on the state it runs in, and the
    only exception it raises is [AttributeError]. *)
Lemma getcol_pure {S : Type} (hm : str_dict string) (r : str_dict cell)
    (k d : string) (s : S) :
  getcol strip hm r k d s = (fst (getcol strip hm r k d tt), s).
Proof.
  unfold getcol. destruct (str_get k hm) as [orig|]; [|reflexivity].
  destruct (String.eqb orig ""); [reflexivity|].
  destruct (str_get orig r) as [[v|]|]; reflexivity.
Qed.

Lemma getcol_raises (hm : str_dict string) (r : str_dict cell)
    (k d : string) (e : exn) :
  fst (getcol strip hm r k d tt) = Raise e ->
  e = AttributeError /\ none_under hm r k.
Proof.
  unfold getcol, none_under. destruct (str_get k hm) as [orig|]; [|discriminate].
  destruct (String.eqb_spec orig "") as [|Hne]; [discriminate|].
  destruct (str_get orig r) as [[v|]|] eqn:Hcell; try discriminate.
  cbn. intros Heq. injection Heq as <-. split; [reflexivity|].
  exists orig. repeat split; assumption.
Qed.

Lemma getcol_none_under (hm : str_dict string) (r : str_dict cell)
    (k d : string) :
  none_under hm r k -> fst (getcol strip hm r k d tt) = Raise AttributeError.
Proof.
  intros (orig & Hhm & Hne & Hcell). unfold getcol. rewrite Hhm.
  destruct (String.eqb_spec orig "") as [|_]; [contradiction|].
  rewrite Hcell. reflexivity.
Qed.

(** One iteration of the reading loop, by the values of the three columns. *)
Lemma read_row_eq (hm : str_dict string) (r : str_dict cell) (rows : list row) :
  read_row strip hm r rows =
    match fst (getcol strip hm r "url" "" tt) with
    | Raise e => (Raise e, rows)
    | Ok url =>
        if String.eqb url "" then (Ok tt, rows)
        else
          match fst (getcol strip hm r "langs" "" tt) with
          | Raise e => (Raise e, rows)
          | Ok langs =>
              match fst (getcol strip hm r "status" "" tt) with
              | Raise e => (Raise e, rows)
              | Ok status => (Ok tt, (rows ++ [mk_row url langs status])%list)
              end
          end
    end.
Proof.
  unfold read_row, bind. rewrite (getcol_pure hm r "url" "" rows).
  destruct (fst (getcol strip hm r "url" "" tt)) as [url|e]; [|reflexivity].
  destruct (String.eqb url ""); [reflexivity|].
  rewrite (getcol_pure hm r "langs" "" rows).
  destruct (fst (getcol strip hm r "langs" "" tt)) as [langs|e]; [|reflexivity].
  rewrite (getcol_pure hm r "status" "" rows).
  destruct (fst (getcol strip hm r "status" "" tt)) as [status|e]; reflexivity.
Qed.

(** A property of the rows that every appended row has holds of all the rows
    read. *)
Lemma read_loop_Forall (P : row -> Prop) (hm : str_dict string) :
  (forall r url langs status,
      fst (getcol strip hm r "url" "" tt) = Ok url -> url <> "" ->
      fst (getcol strip hm r "langs" "" tt) = Ok langs ->
      fst (getcol strip hm r "status" "" tt) = Ok status ->
      P (mk_row url langs status)) ->
  forall records acc,
    Forall P acc ->
    Forall P (snd (for_each (read_row strip hm) records acc)) /\
    (length (snd (for_each (read_row strip hm) records acc))
       <= length acc + length records)%nat.
Proof.
  intros Hrow. induction records as [|r records IH]; intros acc Hacc; cbn.
  - split; [exact Hacc | lia].
  - unfold bind. rewrite read_row_eq.
    destruct (fst (getcol strip hm r "url" "" tt)) as [url|e] eqn:Hu;
      [|cbn; split; [exact Hacc | lia]].
    destruct (String.eqb_spec url "") as [|Hne].
    { destruct (IH acc Hacc) as [H1 H2]. split; [exact H1 | lia]. }
    destruct (fst (getcol strip hm r "langs" "" tt)) as [langs|e] eqn:Hl;
      [|cbn; split; [exact Hacc | lia]].
    destruct (fst (getcol strip hm r "status" "" tt)) as [status|e] eqn:Hs;
      [|cbn; split; [exact Hacc | lia]].
    destruct (IH (acc ++ [mk_row url langs status])%list) as [H1 H2].
    { apply Forall_app. split; [exact Hacc|]. constructor; [|constructor].
      exact (Hrow r url langs status Hu Hne Hl Hs). }
    split; [exact H1|]. rewrite length_app in H2. cbn in H2. lia.
Qed.

Lemma read_rows_Forall (P : row -> Prop) (fieldnames : option (list string))
    (records : list (str_dict cell)) (rows : list row) :
  (forall r url langs status,
      fst (getcol strip (header_map strip lower fieldnames) r "url" "" tt)
        = Ok url -> url <> "" ->
      fst (getcol strip (header_map strip lower fieldnames) r "langs" "" tt)
        = Ok langs ->
      fst (getcol strip (header_map strip lower fieldnames) r "status" "" tt)
        = Ok status ->
      P (mk_row url langs status)) ->
  read_rows strip lower fieldnames records = Ok rows ->
  Forall P rows /\ (length rows <= length records)%nat.
Proof.
  intros Hrow Hread. unfold read_rows in Hread.
  destruct (read_loop_Forall P _ Hrow records [] (Forall_nil P)) as [H1 H2].
  destruct (for_each _ records []) as [[[]|e] rows']; [|discriminate Hread].
  injection Hread as <-. split; [exact H1 | exact H2].
Qed.

End ReaderFacts.

(** X5: [header_map] sends a normalised name to the last header of the file
    that normalises to it: of two headers that differ only in case or
    surrounding blanks the later one is used. *)
Theorem header_map_last_wins (strip lower : string -> string)
    (fieldnames : list string) (k h : string) :
  str_get k (header_map strip lower (Some fieldnames)) = Some h <->
  exists before after,
    fieldnames = (before ++ h :: after)%list /\
    norm strip lower h = k /\
    Forall (fun h' => norm strip lower h' <> k) after.
Proof.
  unfold header_map. rewrite header_map_fold.
  assert (Hnone : forall o : option string,
             match o with Some x => Some x | None => str_get k [] end = o).
  { intros [x|]; reflexivity. }
  rewrite Hnone, find_rev_last. split.
  - intros (before & after & Heq & Hk & Hafter).
    exists before, after. split; [exact Heq|]. split.
    + apply String.eqb_eq. exact Hk.
    + eapply Forall_impl; [|exact Hafter]. cbn. intros h' Hh'.
      apply String.eqb_neq. exact Hh'.
  - intros (before & after & Heq & Hk & Hafter).
    exists before, after. split; [exact Heq|]. split.
    + apply String.eqb_eq. exact Hk.
    + eapply Forall_impl; [|exact Hafter]. cbn. intros h' Hh'.
      apply String.eqb_neq. exact Hh'.
Qed.

Lemma header_map_last_wins_witness :
  str_get "url" (header_map ascii_strip ascii_lower (Some ["url"; "URL "; "x"]))
    = Some "URL ".
Proof.
  apply (header_map_last_wins ascii_strip ascii_lower ["url"; "URL "; "x"]).
  exists ["url"], ["x"]. split; [reflexivity|]. split; [reflexivity|].
  constructor; [|constructor]. vm_compute. discriminate.
Defined.

(** X6: when the reading succeeds, every row it built has a non-empty URL,
    the stripped value of the URL column, and there are at most as many rows
    as records: records whose URL is blank are skipped. *)
Theorem read_rows_urls_not_empty (strip lower : string -> string)
    (fieldnames : option (list string)) (records : list (str_dict cell))
    (rows : list row) :
  read_rows strip lower fieldnames records = Ok rows ->
  Forall (fun r => URL r <> "") rows /\
  (length rows <= length records)%nat.
Proof.
  apply read_rows_Forall. intros r url langs status _ Hne _ _. exact Hne.
Qed.

Lemma read_rows_urls_not_empty_witness :
  Forall (fun r => URL r <> "")
    [mk_row "https://ok.test" "en" ""; mk_row "https://broken.test" "" "x"] /\
  (2 <= length sample_records)%nat.
Proof.
  apply (read_rows_urls_not_empty ascii_strip ascii_lower sample_fieldnames
           sample_records).
  vm_compute. reflexivity.
Defined.

(** X7: when no header of the file normalises to "url" (or the file has no
    header at all), the loop builds no row and its body raises nothing,
    whatever the records hold, [None] included: the reading gives the empty
    list, unless the reader itself raises while it iterates, and then that
    exception is the one that ends the reading. *)
Theorem read_reader_without_url_header (strip lower : string -> string)
    (fieldnames : option (list string)) (records : list (str_dict cell))
    (ending : option exn) :
  (forall h, In h (match fieldnames with Some l => l | None => [] end) ->
             norm strip lower h <> "url") ->
  read_reader strip lower (Delivers fieldnames records ending) =
    match ending with
    | None => Ok []
    | Some e => Raise e
    end.
Proof.
  intros Hno. pose proof (header_map_absent strip lower _ _ Hno) as Hhm.
  unfold read_reader.
  assert (Hloop : for_each (read_row strip (header_map strip lower fieldnames))
                    records [] = (Ok tt, [])).
  { induction records as [|r records IH]; cbn; [reflexivity|].
    unfold bind. rewrite read_row_eq. unfold getcol at 1. rewrite Hhm.
    cbn. exact IH. }
  rewrite Hloop. reflexivity.
Qed.

Lemma read_reader_without_url_header_witness :
  read_reader ascii_strip ascii_lower
    (Delivers (Some ["Link"; "Langs"]) [short_record] None) = Ok [] /\
  read_reader ascii_strip ascii_lower
    (Delivers (Some ["Link"; "Langs"]) [short_record] (Some UnicodeDecodeError))
    = Raise UnicodeDecodeError.
Proof.
  assert (Hno : forall h, In h ["Link"; "Langs"] ->
                          norm ascii_strip ascii_lower h <> "url").
  { intros h [<- | [<- | []]]; vm_compute; discriminate. }
  split.
  - exact (read_reader_without_url_header ascii_strip ascii_lower
             (Some ["Link"; "Langs"]) [short_record] None Hno).
  - exact (read_reader_without_url_header ascii_strip ascii_lower
             (Some ["Link"; "Langs"]) [short_record]
             (Some UnicodeDecodeError) Hno).
Defined.

(** X8: when no header normalises to "langs", every row read has the empty
    string as Langs, and likewise for "status" and Status: the two columns
    are optional. *)
Theorem read_rows_optional_columns (strip lower : string -> string)
    (fieldnames : option (list string)) (records : list (str_dict cell))
    (rows : list row) :
  read_rows strip lower fieldnames records = Ok rows ->
  (str_get "langs" (header_map strip lower fieldnames) = None ->
   Forall (fun r => Langs r = "") rows) /\
  (str_get "status" (header_map strip lower fieldnames) = None ->
   Forall (fun r => Status r = "") rows).
Proof.
  intros Hread. split; intros Hhm.
  - refine (proj1 (read_rows_Forall strip lower (fun r => Langs r = "")
                     fieldnames records rows _ Hread)).
    intros r url langs status _ _ Hl _. unfold getcol in Hl.
    rewrite Hhm in Hl. cbn in Hl. injection Hl as <-. reflexivity.
  - refine (proj1 (read_rows_Forall strip lower (fun r => Status r = "")
                     fieldnames records rows _ Hread)).
    intros r url langs status _ _ _ Hs. unfold getcol in Hs.
    rewrite Hhm in Hs. cbn in Hs. injection Hs as <-. reflexivity.
Qed.

Lemma read_rows_optional_columns_witness :
  Forall (fun r => Langs r = "") [mk_row "https://ok.test" "" ""] /\
  Forall (fun r => Status r = "") [mk_row "https://ok.test" "" ""].
Proof.
  destruct (read_rows_optional_columns ascii_strip ascii_lower (Some ["URL"])
              [[("URL", Text "https://ok.test")]]
              [mk_row "https://ok.test" "" ""]) as [Hl Hs].
  - vm_compute. reflexivity.
  - split; [apply Hl | apply Hs]; vm_compute; reflexivity.
Defined.

(** X9: a record that has a non-blank URL and [None] under the Langs or the
    Status header (a line with fewer fields than the header) ends the reading
    with [AttributeError], after any number of records that were read
    without error; no row is returned. *)
Theorem read_rows_short_record_raises (strip lower : string -> string)
    (fieldnames : option (list string))
    (before after : list (str_dict cell)) (r : str_dict cell)
    (rows : list row) (url : string) :
  read_rows strip lower fieldnames before = Ok rows ->
  fst (getcol strip (header_map strip lower fieldnames) r "url" "" tt) = Ok url ->
  url <> "" ->
  none_under (header_map strip lower fieldnames) r "langs" \/
  none_under (header_map strip lower fieldnames) r "status" ->
  read_rows strip lower fieldnames (before ++ r :: after) = Raise AttributeError.
Proof.
  intros Hbefore Hurl Hne Hnone. unfold read_rows in *.
  rewrite for_each_app.
  destruct (for_each _ before []) as [[[]|e] rows0]; [|discriminate Hbefore].
  cbn. unfold bind. rewrite read_row_eq, Hurl.
  destruct (String.eqb_spec url "") as [|_]; [contradiction|].
  destruct Hnone as [Hl | Hs].
  - rewrite (getcol_none_under strip _ _ _ _ Hl). reflexivity.
  - destruct (fst (getcol strip _ r "langs" "" tt)) as [langs|e] eqn:Hl.
    + rewrite (getcol_none_under strip _ _ _ _ Hs). reflexivity.
    + destruct (getcol_raises strip _ _ _ _ _ Hl) as [-> _]. reflexivity.
Qed.

Lemma read_rows_short_record_raises_witness :
  read_rows ascii_strip ascii_lower sample_fieldnames
    (sample_records ++ short_record :: sample_records) = Raise AttributeError.
Proof.
  apply (read_rows_short_record_raises ascii_strip ascii_lower
           sample_fieldnames sample_records sample_records short_record
           [mk_row "https://ok.test" "en" ""; mk_row "https://broken.test" "" "x"]
           "https://ok.test").
  - vm_compute. reflexivity.
  - vm_compute. reflexivity.
  - discriminate.
  - left. exists "Langs ". split; [vm_compute; reflexivity|].
    split; [discriminate | vm_compute; reflexivity].
Defined.

(** X10: when no record that the reader yields holds a [None], the loop body
    raises nothing: the reading gives its rows, unless the reader itself
    raises while it iterates, and then that exception is the one that ends
    the reading.  A failure of the reading is thus one of the reader (header
    or iteration) or the [AttributeError] of a [None] value. *)
Theorem read_reader_body_fails_only_on_none (strip lower : string -> string)
    (fieldnames : option (list string)) (records : list (str_dict cell))
    (ending : option exn) :
  Forall all_text records ->
  exists rows,
    read_reader strip lower (Delivers fieldnames records ending) =
      match ending with
      | None => Ok rows
      | Some e => Raise e
      end.
Proof.
  intros Hfull. unfold read_reader.
  assert (Hloop : forall acc, exists rows,
             for_each (read_row strip (header_map strip lower fieldnames))
               records acc = (Ok tt, rows)).
  { induction Hfull as [|r records Hr _ IH]; intros acc; cbn.
    - exists acc. reflexivity.
    - assert (Hok : forall k, exists v,
                 fst (getcol strip (header_map strip lower fieldnames) r k "" tt)
                   = Ok v).
      { intros k.
        destruct (fst (getcol strip _ r k "" tt)) as [v|e] eqn:Hcol;
          [exists v; reflexivity|].
        destruct (getcol_raises strip _ _ _ _ _ Hcol)
          as (_ & orig & _ & _ & Hcell).
        unfold str_get in Hcell.
        destruct (find _ r) as [[k' c]|] eqn:Hfind; [|discriminate Hcell].
        apply find_some in Hfind. destruct Hfind as [Hin _].
        cbn in Hcell. injection Hcell as ->.
        unfold all_text in Hr. rewrite Forall_forall in Hr.
        exfalso. exact (Hr _ Hin eq_refl). }
      unfold bind. rewrite read_row_eq.
      destruct (Hok "url") as [url ->]. destruct (String.eqb url ""); [apply IH|].
      destruct (Hok "langs") as [langs ->]. destruct (Hok "status") as [status ->].
      apply IH. }
  destruct (Hloop []) as [rows ->]. exists rows. reflexivity.
Qed.

Lemma read_reader_body_fails_only_on_none_witness :
  (exists rows,
      read_reader ascii_strip ascii_lower
        (Delivers sample_fieldnames
           [[(" URL", Text "https://ok.test"); ("Langs ", Text "en")]] None)
        = Ok rows) /\
  (exists rows : list row,
      read_reader ascii_strip ascii_lower
        (Delivers sample_fieldnames
           [[(" URL", Text "https://ok.test"); ("Langs ", Text "en")]]
           (Some UnicodeDecodeError))
        = Raise UnicodeDecodeError).
Proof.
  assert (Hfull : Forall all_text
                    [[(" URL", Text "https://ok.test"); ("Langs ", Text "en")]]).
  { constructor; [|constructor].
    constructor; [discriminate|]. constructor; [discriminate | constructor]. }
  split.
  - exact (read_reader_body_fails_only_on_none ascii_strip ascii_lower
             sample_fieldnames _ None Hfull).
  - exact (read_reader_body_fails_only_on_none ascii_strip ascii_lower
             sample_fieldnames _ (Some UnicodeDecodeError) Hfull).
Defined.

(** ** The collecting loop and the executor *)

Lemma exec_snoc (max_workers : nat) (net : future -> transport)
    (sched : list action) (a : action) (s : state) :
  exec max_workers net (sched ++ [a]) s =
    match exec max_workers net sched s with
    | Some s' => step max_workers net a s'
    | None => None
    end.
Proof.
  revert s. induction sched as [|b sched IH]; intros s; cbn.
  - destruct (step max_workers net a s); reflexivity.
  - destruct (step max_workers net b s) as [s1|]; [apply IH | reflexivity].
Qed.

Section RunFacts.

Variable max_workers : nat.
Variable net : future -> transport.
Variable rows : list row.

(** Induction along a run: a property of the schedule run so far and the
    state it led to. *)
Lemma run_ind (P : list action -> state -> Prop) :
  P [] (initial rows) ->
  (forall sched a s s',
      exec max_workers net sched (initial rows) = Some s ->
      P sched s ->
      step max_workers net a s = Some s' ->
      P (sched ++ [a])%list s') ->
  forall sched s,
    exec max_workers net sched (initial rows) = Some s -> P sched s.
Proof.
  intros Hinit Hstep sched.
  induction sched as [|a sched IH] using rev_ind; intros s Hrun.
  - cbn in Hrun. injection Hrun as <-. exact Hinit.
  - rewrite exec_snoc in Hrun.
    destruct (exec max_workers net sched (initial rows)) as [s0|] eqn:Hrun0;
      [|discriminate Hrun].
    exact (Hstep sched a s0 s Hrun0 (IH s0 eq_refl) Hrun).
Qed.

Lemma invariant_future_map (s : state) :
  invariant max_workers net rows s ->
  (forall todo, main s <> Submitting todo) ->
  future_map s = enumerate rows.
Proof.
  intros H Hmain. apply keys_enumerate; [exact (inv_keys _ _ _ _ H)|].
  pose proof (inv_rows _ _ _ _ H) as Hr.
  destruct (main s) as [todo | pending | written | e]; try (symmetry; exact Hr).
  exfalso. exact (Hmain todo eq_refl).
Qed.

(** What one turn of the loop does to the variables of [check_urls]. *)
Lemma yield_step (f : future) (s s' : state) :
  invariant max_workers net rows s ->
  step max_workers net (Yield f) s = Some s' ->
  exists r,
    lookup f (enumerate rows) = Some r /\
    vars s' =
      mk_locals
        (console (vars s) ++ [line_of_result (expected_row net (f, r))])
        (results (vars s) ++ [expected_row net (f, r)]).
Proof.
  intros H Hstep. pose proof (invariant_NoDup _ _ _ _ H) as Hnd.
  assert (Hfm : forall pending, main s = Collecting pending ->
                                future_map s = enumerate rows).
  { intros pending Hmain. apply (invariant_future_map _ H).
    intros todo. congruence. }
  destruct s as [m v fm q i fin]. unfold step in Hstep.
  cbn [main vars future_map work_queue in_flight finished] in *.
  destruct m as [todo | pending | written | e]; try discriminate Hstep.
  specialize (Hfm pending eq_refl).
  destruct (existsb (Nat.eqb f) pending) eqn:Hex; [|discriminate Hstep].
  apply existsb_In in Hex.
  destruct (lookup f fin) as [res|] eqn:Hfin; [|discriminate Hstep].
  pose proof (inv_main _ _ _ _ H) as Hm. cbn in Hm.
  destruct Hm as (done & rest & Hp & Hpend & _). subst pending.
  apply in_map_iff in Hex. destruct Hex as ([f' r] & Heq & Hin).
  cbn in Heq. subst f'.
  assert (Hr : In (f, r) fm).
  { apply (Permutation_in _ (Permutation_sym Hp)). apply in_or_app.
    right. exact Hin. }
  pose proof (NoDup_lookup _ _ _ Hnd Hr) as Hlook.
  rewrite (loop_body_found _ _ _ _ _ Hlook) in Hstep. injection Hstep as <-.
  apply lookup_In in Hfin.
  destruct (inv_finished _ _ _ _ H _ _ Hfin) as (r' & Hr' & ->). cbn in Hr'.
  assert (r' = r) as ->.
  { pose proof (NoDup_lookup _ _ _ Hnd Hr'). congruence. }
  exists r. split; [rewrite <- Hfm; exact Hlook | reflexivity].
Qed.

Lemma other_step_vars (a : action) (s s' : state) :
  step max_workers net a s = Some s' ->
  (forall f, a <> Yield f) ->
  vars s' = vars s.
Proof.
  intros Hstep Hnot. destruct s as [m v fm q i fin]. unfold step in Hstep.
  cbn [main vars future_map work_queue in_flight finished] in Hstep.
  destruct a as [| f | | f].
  - destruct m as [[|r todo] | [|f pending] | written | e];
      try discriminate Hstep.
    + injection Hstep as <-. reflexivity.
    + injection Hstep as <-. reflexivity.
    + destruct q; [|discriminate Hstep]. destruct i; [|discriminate Hstep].
      injection Hstep as <-. reflexivity.
  - exfalso. exact (Hnot f eq_refl).
  - destruct q as [|w q]; [discriminate Hstep|].
    destruct (length i <? max_workers)%nat; [|discriminate Hstep].
    injection Hstep as <-. reflexivity.
  - destruct (lookup f i); [|discriminate Hstep].
    injection Hstep as <-. reflexivity.
Qed.

Lemma yields_snoc (sched : list action) (a : action) :
  yields (sched ++ [a]) =
    (yields sched ++ match a with
                     | Yield f => [f]
                     | _ => []
                     end)%list.
Proof.
  unfold yields. rewrite flat_map_app. cbn. rewrite app_nil_r. reflexivity.
Qed.

Lemma run_results (sched : list action) (s : state) :
  exec max_workers net sched (initial rows) = Some s ->
  results (vars s) = map (expected_row net) (yielded rows sched).
Proof.
  revert sched s. apply run_ind; [reflexivity|].
  intros sched a s s' Hrun IH Hstep.
  pose proof (run_invariant _ _ _ _ _ Hrun) as H.
  unfold yielded. rewrite yields_snoc, flat_map_app, map_app.
  fold (yielded rows sched). rewrite <- IH.
  destruct a as [| f | | f];
    try (rewrite (other_step_vars _ _ _ Hstep); [|discriminate];
         cbn; rewrite app_nil_r; reflexivity).
  destruct (yield_step _ _ _ H Hstep) as (r & Hlook & ->).
  cbn. rewrite Hlook. reflexivity.
Qed.

Lemma run_console (sched : list action) (s : state) :
  exec max_workers net sched (initial rows) = Some s ->
  console (vars s) = banner rows :: map line_of_result (results (vars s)).
Proof.
  revert sched s.
  apply (run_ind (fun _ s => console (vars s) =
                             banner rows :: map line_of_result (results (vars s))));
    [reflexivity|].
  intros sched a s s' Hrun IH Hstep.
  pose proof (run_invariant _ _ _ _ _ Hrun) as H.
  destruct a as [| f | | f];
    try (rewrite (other_step_vars _ _ _ Hstep); [exact IH | discriminate]).
  destruct (yield_step _ _ _ H Hstep) as (r & _ & ->).
  cbn [console results]. rewrite IH, map_app. reflexivity.
Qed.

End RunFacts.

(** X11: at every point of a run the result list holds, in this order, the
    rows of the futures that [as_completed] has yielded so far, each with the
    outcome of its own call; so the rows are written in the order in which
    the futures were yielded, not in the order of the input. *)
Theorem check_urls_output_in_yield_order (net : future -> transport)
    (rows : list row) (sched : list action) (s : state) :
  check_urls net rows sched = Some s ->
  results (vars s) = map (expected_row net) (yielded rows sched) /\
  (forall written,
      main s = Returned written ->
      written = map (expected_row net) (yielded rows sched)).
Proof.
  intros Hrun. pose proof (run_results _ _ _ _ _ Hrun) as Hres.
  split; [exact Hres|]. intros written Hmain.
  pose proof (inv_main _ _ _ _ (run_invariant _ _ _ _ _ Hrun)) as Hm.
  rewrite Hmain in Hm. destruct Hm as [-> _]. exact Hres.
Qed.

Lemma check_urls_output_in_yield_order_witness :
  exists s written,
    check_urls (fun _ => mock) sample_rows sample_schedule = Some s /\
    main s = Returned written /\
    written = map (expected_row (fun _ => mock))
                (yielded sample_rows sample_schedule).
Proof.
  destruct (check_urls (fun _ => mock) sample_rows sample_schedule)
    as [s|] eqn:Hrun; [|vm_compute in Hrun; discriminate Hrun].
  pose proof Hrun as Hs. vm_compute in Hs. injection Hs as <-.
  eexists. eexists. split; [reflexivity|]. split; [reflexivity|].
  exact (proj2 (check_urls_output_in_yield_order _ _ _ _ Hrun) _ eq_refl).
Defined.

(** X12: at every point of a run the console holds the opening line and then
    one line per result row, in the order of the result list, made of the
    emoji, the URL and the coloured code of that row. *)
Theorem check_urls_console_follows_results (net : future -> transport)
    (rows : list row) (sched : list action) (s : state) :
  check_urls net rows sched = Some s ->
  console (vars s) = banner rows :: map line_of_result (results (vars s)).
Proof.
  intros Hrun. exact (run_console _ _ _ _ _ Hrun).
Qed.

Lemma check_urls_console_follows_results_witness :
  exists s,
    check_urls (fun _ => mock) sample_rows sample_schedule = Some s /\
    console (vars s) =
      banner sample_rows :: map line_of_result (results (vars s)).
Proof.
  eexists. split; [vm_compute; reflexivity|].
  apply (check_urls_console_follows_results (fun _ => mock) sample_rows
           sample_schedule).
  vm_compute. reflexivity.
Defined.

(** X13: at every point of a run the futures submitted so far, the keys of
    [future_map], are exactly the calls in the work queue, in a worker or
    among the finished futures: every submitted call is in one of the three
    places, in one only and once; and only futures of the input rows are
    there. *)
Theorem check_urls_each_call_in_one_place (net : future -> transport)
    (rows : list row) (sched : list action) (s : state) :
  check_urls net rows sched = Some s ->
  Permutation (keys (future_map s))
    (keys (work_queue s) ++ keys (in_flight s) ++ keys (finished s)) /\
  keys (future_map s) = seq 0 (length (future_map s)) /\
  NoDup (keys (work_queue s) ++ keys (in_flight s) ++ keys (finished s)) /\
  (length (future_map s) <= length rows)%nat /\
  ((forall todo, main s <> Submitting todo) ->
   length (future_map s) = length rows) /\
  (forall f,
      In f (keys (work_queue s) ++ keys (in_flight s) ++ keys (finished s)) ->
      (f < length rows)%nat).
Proof.
  intros Hrun. pose proof (run_invariant _ _ _ _ _ Hrun) as H.
  pose proof (invariant_NoDup _ _ _ _ H) as Hnd.
  pose proof (inv_tasks _ _ _ _ H) as Ht.
  assert (Hlen : (length (future_map s) <= length rows)%nat).
  { pose proof (inv_rows _ _ _ _ H) as Hr.
    destruct (main s); rewrite Hr; try rewrite length_app;
      rewrite length_map; lia. }
  split; [exact Ht|]. split; [exact (inv_keys _ _ _ _ H)|].
  split; [exact (Permutation_NoDup Ht Hnd)|]. split; [exact Hlen|]. split.
  - intros Hmain. rewrite (run_future_map _ _ _ _ _ Hrun Hmain).
    rewrite <- (map_snd_enumerate rows) at 2. rewrite length_map. reflexivity.
  - intros f Hf. apply (Permutation_in _ (Permutation_sym Ht)) in Hf.
    rewrite (inv_keys _ _ _ _ H) in Hf. apply in_seq in Hf. lia.
Qed.

Lemma check_urls_each_call_in_one_place_witness :
  exists s,
    check_urls (fun _ => mock) sample_rows
      [Main; Main; Start; Main; Start; Finish 1; Main] = Some s /\
    keys (future_map s) = [0; 1; 2; 3]%nat /\
    Permutation (keys (future_map s))
      (keys (work_queue s) ++ keys (in_flight s) ++ keys (finished s)).
Proof.
  eexists. split; [vm_compute; reflexivity|].
  split; [vm_compute; reflexivity|].
  apply (check_urls_each_call_in_one_place (fun _ => mock) sample_rows
           [Main; Main; Start; Main; Start; Finish 1; Main]).
  vm_compute. reflexivity.
Defined.

(** X14: when [check_urls] has left the [with] block, the finished futures are
    exactly one per input row, each holding what [fetch_status] returned or
    raised for the URL of that row: every row was probed once, duplicates of
    a URL each on their own. *)
Theorem check_urls_every_row_probed_once (net : future -> transport)
    (rows : list row) (sched : list action) (s : state)
    (written : list result_row) :
  check_urls net rows sched = Some s ->
  main s = Returned written ->
  Permutation (finished s) (map (probe_of net) (enumerate rows)).
Proof.
  intros Hrun Hmain. pose proof (run_invariant _ _ _ _ _ Hrun) as H.
  pose proof (invariant_NoDup _ _ _ _ H) as Hnd.
  assert (Hfm : future_map s = enumerate rows).
  { apply (invariant_future_map _ _ _ _ H). intros todo. congruence. }
  pose proof (inv_main _ _ _ _ H) as Hm. rewrite Hmain in Hm.
  destruct Hm as (_ & _ & Hq & Hi).
  pose proof (inv_tasks _ _ _ _ H) as Ht. rewrite Hq, Hi in Ht. cbn in Ht.
  set (g := fun f => match lookup f (future_map s) with
                     | Some r => (f, task net f (URL r))
                     | None => (f, Ok ERROR)
                     end).
  assert (Hfin : map g (keys (finished s)) = finished s).
  { unfold keys. rewrite map_map. rewrite <- (map_id (finished s)) at 2.
    apply map_ext_in. intros [f res] Hin. cbn.
    destruct (inv_finished _ _ _ _ H _ _ Hin) as (r & Hr & ->).
    unfold g. rewrite (NoDup_lookup _ _ _ Hnd Hr). reflexivity. }
  assert (Hall : map g (keys (future_map s)) = map (probe_of net) (future_map s)).
  { unfold keys. rewrite map_map. apply map_ext_in. intros [f r] Hin. cbn.
    unfold g. rewrite (NoDup_lookup _ _ _ Hnd Hin). reflexivity. }
  rewrite <- Hfin, <- Hfm, <- Hall. apply Permutation_map.
  symmetry. exact Ht.
Qed.

Lemma check_urls_every_row_probed_once_witness :
  exists s,
    check_urls (fun _ => mock) sample_rows sample_schedule = Some s /\
    Permutation (finished s)
      (map (probe_of (fun _ => mock)) (enumerate sample_rows)).
Proof.
  eexists. split; [vm_compute; reflexivity|].
  eapply (check_urls_every_row_probed_once (fun _ => mock) sample_rows
            sample_schedule).
  - vm_compute. reflexivity.
  - vm_compute. reflexivity.
Defined.

(** X15: while the loop runs, the rows collected so far and the futures not
    yet yielded add up to the number of input rows, and no future is waiting
    to be yielded twice. *)
Theorem check_urls_collected_plus_pending (net : future -> transport)
    (rows : list row) (sched : list action) (s : state)
    (pending : list future) :
  check_urls net rows sched = Some s ->
  main s = Collecting pending ->
  (length (results (vars s)) + length pending = length rows)%nat /\
  NoDup pending.
Proof.
  intros Hrun Hmain. pose proof (run_invariant _ _ _ _ _ Hrun) as H.
  pose proof (invariant_NoDup _ _ _ _ H) as Hnd.
  pose proof (inv_main _ _ _ _ H) as Hm. rewrite Hmain in Hm.
  destruct Hm as (done & rest & Hp & -> & Hres & _).
  pose proof (inv_rows _ _ _ _ H) as Hr. rewrite Hmain in Hr. split.
  - rewrite Hres, Hr. unfold keys. rewrite !length_map.
    rewrite (Permutation_length Hp), length_app. reflexivity.
  - unfold keys in *. rewrite (Permutation_map fst Hp), map_app in Hnd.
    exact (NoDup_app_remove_l _ _ Hnd).
Qed.

Lemma check_urls_collected_plus_pending_witness :
  exists s pending,
    check_urls (fun _ => mock) sample_rows
      [Main; Main; Start; Main; Start; Finish 1; Main; Main; Yield 1] = Some s /\
    main s = Collecting pending /\
    (length (results (vars s)) + length pending = length sample_rows)%nat /\
    NoDup pending.
Proof.
  eexists. eexists. split; [vm_compute; reflexivity|].
  split; [reflexivity|].
  eapply (check_urls_collected_plus_pending (fun _ => mock) sample_rows
            [Main; Main; Start; Main; Start; Finish 1; Main; Main; Yield 1]).
  - vm_compute. reflexivity.
  - reflexivity.
Defined.

(** X16: when the rows come from the reading of the file, every row that a
    complete run writes has a non-empty URL, and the rows written are at most
    as many as the records of the file. *)
Theorem check_urls_writes_no_empty_url (strip lower : string -> string)
    (fieldnames : option (list string)) (records : list (str_dict cell))
    (net : future -> transport) (rows : list row) (sched : list action)
    (s : state) (written : list result_row) :
  read_rows strip lower fieldnames records = Ok rows ->
  check_urls net rows sched = Some s ->
  main s = Returned written ->
  Forall (fun r => out_URL r <> "") written /\
  (length written <= length records)%nat.
Proof.
  intros Hread Hrun Hmain.
  destruct (read_rows_Forall strip lower (fun r => URL r <> "") fieldnames
              records rows) as [Hurls Hlen]; [|exact Hread|].
  { intros r url langs status _ Hne _ _. exact Hne. }
  pose proof (run_returned _ _ _ _ _ _ Hrun Hmain) as Hp. split.
  - apply Forall_forall. intros r Hr.
    apply (Permutation_in _ Hp) in Hr. apply in_map_iff in Hr.
    destruct Hr as ([f r0] & <- & Hin). cbn.
    rewrite Forall_forall in Hurls. apply Hurls.
    rewrite <- (map_snd_enumerate rows).
    change r0 with (snd (f, r0)). apply in_map. exact Hin.
  - rewrite (Permutation_length Hp), length_map.
    rewrite <- (map_snd_enumerate rows) in Hlen. rewrite length_map in Hlen.
    exact Hlen.
Qed.

Lemma check_urls_writes_no_empty_url_witness :
  Forall (fun r => out_URL r <> "")
    (written_rows
       (check_urls (fun _ => mock)
          [mk_row "https://ok.test" "en" ""; mk_row "https://broken.test" "" "x"]
          [Main; Main; Main; Start; Start; Finish 1; Finish 0; Yield 1;
           Yield 0; Main])) /\
  (length
     (written_rows
        (check_urls (fun _ => mock)
           [mk_row "https://ok.test" "en" ""; mk_row "https://broken.test" "" "x"]
           [Main; Main; Main; Start; Start; Finish 1; Finish 0; Yield 1;
            Yield 0; Main]))
   <= length sample_records)%nat.
Proof.
  eapply (check_urls_writes_no_empty_url ascii_strip ascii_lower
            sample_fieldnames sample_records (fun _ => mock)
            [mk_row "https://ok.test" "en" ""; mk_row "https://broken.test" "" "x"]
            [Main; Main; Main; Start; Start; Finish 1; Finish 0; Yield 1;
             Yield 0; Main]).
  - vm_compute. reflexivity.
  - vm_compute. reflexivity.
  - vm_compute. reflexivity.
Defined.

Lemma discard_id_perm (f : future) (l : list future) :
  NoDup l -> In f l -> Permutation l (f :: discard id f l).
Proof.
  intros Hnd Hin. apply (discard_perm id f l); [|exact Hin].
  rewrite map_id. exact Hnd.
Qed.

(** X17: the futures that [as_completed] has yielded and those still pending
    are together the futures of the input rows, each once; so in a complete
    run every future is yielded exactly once. *)
Theorem check_urls_yields_each_future_once (net : future -> transport)
    (rows : list row) (sched : list action) (s : state) :
  check_urls net rows sched = Some s ->
  (forall pending,
      main s = Collecting pending ->
      Permutation (seq 0 (length rows)) (yields sched ++ pending)) /\
  (forall written,
      main s = Returned written ->
      Permutation (seq 0 (length rows)) (yields sched)).
Proof.
  revert sched s. unfold check_urls.
  apply (run_ind MAX_WORKERS net rows
           (fun sched s =>
              (forall todo, main s = Submitting todo -> yields sched = []) /\
              (forall pending,
                  main s = Collecting pending ->
                  Permutation (seq 0 (length rows)) (yields sched ++ pending)) /\
              (forall written,
                  main s = Returned written ->
                  Permutation (seq 0 (length rows)) (yields sched)))).
  - cbn. repeat split; intros; try discriminate; reflexivity.
  - intros sched a s s' Hrun (IHs & IHc & IHr) Hstep.
    pose proof (run_invariant _ _ _ _ _ Hrun) as H.
    rewrite yields_snoc.
    destruct s as [m v fm q i fin]. unfold step in Hstep.
    cbn [main vars future_map work_queue in_flight finished] in *.
    destruct a as [| f | | f].
    + rewrite app_nil_r.
      destruct m as [[|r todo] | [|f pending] | written | e];
        try discriminate Hstep.
      * injection Hstep as <-. cbn [main].
        repeat split; intros; try discriminate.
        injection H0 as <-. rewrite (IHs [] eq_refl). cbn.
        pose proof (invariant_future_map _ _ _ _ H) as Hfm. cbn in Hfm.
        pose proof (inv_keys _ _ _ _ H) as Hk. cbn in Hk.
        pose proof (inv_rows _ _ _ _ H) as Hr. cbn in Hr.
        rewrite app_nil_r in Hr. rewrite Hk, Hr, length_map.
        reflexivity.
      * injection Hstep as <-. cbn [main].
        repeat split; intros; try discriminate.
        exact (IHs _ eq_refl).
      * destruct q; [|discriminate Hstep]. destruct i; [|discriminate Hstep].
        injection Hstep as <-. cbn [main].
        repeat split; intros; try discriminate.
        specialize (IHc [] eq_refl). rewrite app_nil_r in IHc. exact IHc.
    + destruct m as [todo | pending | written | e]; try discriminate Hstep.
      destruct (existsb (Nat.eqb f) pending) eqn:Hex; [|discriminate Hstep].
      apply existsb_In in Hex.
      destruct (lookup f fin) as [res|]; [|discriminate Hstep].
      specialize (IHc pending eq_refl).
      assert (Hnd : NoDup pending).
      { pose proof (Permutation_NoDup IHc (seq_NoDup _ _)) as Hnd.
        exact (NoDup_app_remove_l _ _ Hnd). }
      destruct (loop_body fm f res v) as [[[]|e] l]; injection Hstep as <-;
        cbn [main]; repeat split; intros; try discriminate.
      injection H0 as <-. rewrite IHc, <- app_assoc.
      apply Permutation_app_head. cbn. exact (discard_id_perm _ _ Hnd Hex).
    + rewrite app_nil_r. destruct q as [|w q]; [discriminate Hstep|].
      destruct (length i <? MAX_WORKERS)%nat; [|discriminate Hstep].
      injection Hstep as <-. cbn [main]. repeat split; assumption.
    + rewrite app_nil_r. destruct (lookup f i); [|discriminate Hstep].
      injection Hstep as <-. cbn [main]. repeat split; assumption.
Qed.

Lemma check_urls_yields_each_future_once_witness :
  Permutation (seq 0 (length sample_rows)) (yields sample_schedule).
Proof.
  destruct (check_urls (fun _ => mock) sample_rows sample_schedule)
    as [s|] eqn:Hrun; [|vm_compute in Hrun; discriminate Hrun].
  pose proof Hrun as Hs. vm_compute in Hs. injection Hs as <-.
  exact (proj2 (check_urls_yields_each_future_once _ _ _ _ Hrun) _ eq_refl).
Defined.

(** ** Exceptions outside [Exception] *)

Section InterruptFacts.

Variable max_workers : nat.
Variable net : future -> transport.

(** A worker that takes or finishes a call leaves the main thread and its
    variables as they are. *)
Lemma worker_step_main (a : action) (s s' : state) :
  step max_workers net a s = Some s' ->
  a = Start \/ (exists f, a = Finish f) ->
  main s' = main s /\ vars s' = vars s.
Proof.
  intros Hstep Ha. destruct s as [m v fm q i fin]. unfold step in Hstep.
  cbn [main vars future_map work_queue in_flight finished] in Hstep.
  destruct Ha as [-> | [f ->]].
  - destruct q as [|w q]; [discriminate Hstep|].
    destruct (length i <? max_workers)%nat; [|discriminate Hstep].
    injection Hstep as <-. split; reflexivity.
  - destruct (lookup f i); [|discriminate Hstep].
    injection Hstep as <-. split; reflexivity.
Qed.

(** Once an exception has left [check_urls], the main thread does nothing
    more: whatever the workers do, nothing is collected and nothing is
    written. *)
Lemma xstep_escaped (ev : event) (x x' : xstate) (b : system_exit) :
  escaped x = Some b ->
  xstep max_workers net ev x = Some x' ->
  escaped x' = Some b /\ main (base x') = main (base x) /\
  vars (base x') = vars (base x).
Proof.
  intros Hesc Hstep. destruct ev as [[| f | | f] | f b']; unfold xstep in Hstep;
    try rewrite Hesc in Hstep; cbv beta iota in Hstep; try discriminate Hstep.
  - destruct (step max_workers net Start (base x)) as [s'|] eqn:Hs;
      [|discriminate Hstep].
    injection Hstep as <-. cbn.
    destruct (worker_step_main _ _ _ Hs (or_introl eq_refl)) as [Hm Hv].
    repeat split; assumption.
  - destruct (step max_workers net (Finish f) (base x)) as [s'|] eqn:Hs;
      [|discriminate Hstep].
    injection Hstep as <-. cbn.
    destruct (worker_step_main _ _ _ Hs (or_intror (ex_intro _ f eq_refl)))
      as [Hm Hv].
    repeat split; assumption.
  - destruct (lookup f (in_flight (base x))); [|discriminate Hstep].
    injection Hstep as <-. cbn. repeat split; try exact Hesc.
Qed.

Lemma xexec_escaped (events : list event) (x x' : xstate) (b : system_exit) :
  escaped x = Some b ->
  xexec max_workers net events x = Some x' ->
  escaped x' = Some b /\ main (base x') = main (base x) /\
  vars (base x') = vars (base x).
Proof.
  revert x. induction events as [|ev events IH]; intros x Hesc Hrun;
    cbn in Hrun.
  - injection Hrun as <-. repeat split. exact Hesc.
  - destruct (xstep max_workers net ev x) as [x1|] eqn:Hstep;
      [|discriminate Hrun].
    destruct (xstep_escaped _ _ _ _ Hesc Hstep) as (Hesc1 & Hm1 & Hv1).
    destruct (IH x1 Hesc1 Hrun) as (Hesc' & Hm' & Hv').
    repeat split; congruence.
Qed.

(** Without an [Interrupt] the runs are those of [exec]. *)
Lemma xexec_act (sched : list action) (s : state) :
  xexec max_workers net (map Act sched) (mk_xstate s [] None) =
    option_map (fun s' => mk_xstate s' [] None) (exec max_workers net sched s).
Proof.
  revert s. induction sched as [|a sched IH]; intros s; cbn [map xexec exec];
    [reflexivity|].
  assert (Hstep : xstep max_workers net (Act a) (mk_xstate s [] None) =
                  option_map (fun s' => mk_xstate s' [] None)
                    (step max_workers net a s)).
  { destruct a; reflexivity. }
  rewrite Hstep. destruct (step max_workers net a s) as [s1|]; cbn;
    [apply IH | reflexivity].
Qed.

(** A future that holds an exception outside [Exception] makes it leave
    [check_urls] as soon as [as_completed] yields it. *)
Lemma yield_interrupted_escapes (x : xstate) (pending : list future)
    (f : future) (b : system_exit) :
  escaped x = None ->
  main (base x) = Collecting pending ->
  In f pending ->
  lookup f (interrupted x) = Some b ->
  xstep max_workers net (Act (Yield f)) x =
    Some (mk_xstate (base x) (interrupted x) (Some b)).
Proof.
  intros Hesc Hmain Hin Hint. unfold xstep. rewrite Hesc, Hint, Hmain.
  assert (Hex : existsb (Nat.eqb f) pending = true).
  { apply existsb_exists. exists f. split; [exact Hin | apply Nat.eqb_refl]. }
  rewrite Hex. reflexivity.
Qed.

End InterruptFacts.

(** C3, as stated, fails: on [sample_rows], when the call of the second row
    ends with [KeyboardInterrupt], the exception leaves [check_urls] at the
    moment [as_completed] yields that future.  No row is recorded for it, the
    row already collected for the first URL is never written, and whatever
    happens afterwards the run does not reach the writer. *)
Lemma check_urls_keyboard_interrupt_escapes :
  exists x,
    xexec MAX_WORKERS (fun _ => mock) interrupt_events (xinitial sample_rows)
      = Some x /\
    escaped x = Some KeyboardInterrupt /\
    results (vars (base x)) = [mk_result_row "https://ok.test" "en" (Code 200) ""] /\
    forall more x',
      xexec MAX_WORKERS (fun _ => mock) more x = Some x' ->
      escaped x' = Some KeyboardInterrupt /\
      results (vars (base x')) = results (vars (base x)) /\
      forall written, main (base x') <> Returned written.
Proof.
  eexists. split; [vm_compute; reflexivity|].
  split; [reflexivity|]. split; [reflexivity|].
  intros more x' Hrun.
  pose proof (fun Hesc => xexec_escaped _ _ _ _ _ KeyboardInterrupt Hesc Hrun)
    as H.
  destruct (H eq_refl) as (Hesc & Hmain & Hvars).
  split; [exact Hesc|]. split; [rewrite Hvars; reflexivity|].
  intros written Hret. rewrite Hmain in Hret. discriminate Hret.
Qed.

(** ** Runs with interrupted calls against runs without *)

Lemma lookup_app {V : Type} (g : future) (l1 l2 : list (future * V)) :
  lookup g (l1 ++ l2) =
    match lookup g l1 with
    | Some v => Some v
    | None => lookup g l2
    end.
Proof.
  unfold lookup, find_key. induction l1 as [|[k v] l1 IH]; cbn; [reflexivity|].
  destruct (k =? g)%nat; [reflexivity | exact IH].
Qed.

Section Simulation.

Variable max_workers : nat.
Variable net : future -> transport.

(** A step of the main thread or the start of a call does not look at the
    finished futures, except for the one the loop is given. *)
Lemma step_set_finished (a : action) (s s' : state)
    (fin : list (future * result outcome)) :
  step max_workers net a s = Some s' ->
  (forall f, a = Yield f -> lookup f fin = lookup f (finished s)) ->
  (forall f, a <> Finish f) ->
  step max_workers net a (set_finished fin s) = Some (set_finished fin s').
Proof.
  intros Hstep Hy Hf. destruct s as [m v fm q i fin0]. unfold step in *.
  cbn [set_finished main vars future_map work_queue in_flight finished] in *.
  destruct a as [| f | | f].
  - destruct m as [[|r todo] | [|f pending] | written | e];
      try discriminate Hstep.
    + injection Hstep as <-. reflexivity.
    + injection Hstep as <-. reflexivity.
    + destruct q; [|discriminate Hstep]. destruct i; [|discriminate Hstep].
      injection Hstep as <-. reflexivity.
  - destruct m as [todo | pending | written | e]; try discriminate Hstep.
    destruct (existsb (Nat.eqb f) pending); [|discriminate Hstep].
    rewrite (Hy f eq_refl).
    destruct (lookup f fin0) as [res|]; [|discriminate Hstep].
    destruct (loop_body fm f res v) as [[[]|e] l]; injection Hstep as <-;
      reflexivity.
  - destruct q as [|w q]; [discriminate Hstep|].
    destruct (length i <? max_workers)%nat; [|discriminate Hstep].
    injection Hstep as <-. reflexivity.
  - exfalso. exact (Hf f eq_refl).
Qed.

Lemma step_keeps_finished (a : action) (s s' : state) :
  step max_workers net a s = Some s' ->
  (forall f, a <> Finish f) ->
  finished s' = finished s.
Proof.
  intros Hstep Hf. destruct s as [m v fm q i fin0]. unfold step in Hstep.
  cbn [main vars future_map work_queue in_flight finished] in *.
  destruct a as [| f | | f].
  - destruct m as [[|r todo] | [|f pending] | written | e];
      try discriminate Hstep.
    + injection Hstep as <-. reflexivity.
    + injection Hstep as <-. reflexivity.
    + destruct q; [|discriminate Hstep]. destruct i; [|discriminate Hstep].
      injection Hstep as <-. reflexivity.
  - destruct m as [todo | pending | written | e]; try discriminate Hstep.
    destruct (existsb (Nat.eqb f) pending); [|discriminate Hstep].
    destruct (lookup f fin0) as [res|]; [|discriminate Hstep].
    destruct (loop_body fm f res v) as [[[]|e] l]; injection Hstep as <-;
      reflexivity.
  - destruct q as [|w q]; [discriminate Hstep|].
    destruct (length i <? max_workers)%nat; [|discriminate Hstep].
    injection Hstep as <-. reflexivity.
  - exfalso. exact (Hf f eq_refl).
Qed.

Lemma finish_set_finished (f : future) (s s' : state)
    (fin : list (future * result outcome)) :
  step max_workers net (Finish f) s = Some s' ->
  exists url,
    lookup f (in_flight s) = Some url /\
    finished s' = (finished s ++ [(f, task net f url)])%list /\
    step max_workers net (Finish f) (set_finished fin s) =
      Some (set_finished (fin ++ [(f, task net f url)]) s').
Proof.
  intros Hstep. destruct s as [m v fm q i fin0]. unfold step in *.
  cbn [set_finished main vars future_map work_queue in_flight finished] in *.
  destruct (lookup f i) as [url|]; [|discriminate Hstep].
  injection Hstep as <-. exists url. repeat split.
Qed.

(** Every step of a run with interrupted calls is matched, on the state in
    which those calls finished in the ordinary way, by a step of [step] or by
    no step at all. *)
Lemma xstep_simulated (ev : event) (x x' : xstate)
    (fin : list (future * result outcome)) :
  agrees_off_interrupted x fin ->
  xstep max_workers net ev x = Some x' ->
  exists sched fin',
    exec max_workers net sched (set_finished fin (base x)) =
      Some (set_finished fin' (base x')) /\
    agrees_off_interrupted x' fin'.
Proof.
  intros Hag Hstep. unfold xstep in Hstep.
  destruct ev as [[| f | | f] | f b].
  - destruct (escaped x); [discriminate Hstep|].
    destruct (step max_workers net Main (base x)) as [s'|] eqn:Hs;
      [|discriminate Hstep].
    injection Hstep as <-. exists [Main], fin. cbn [exec base]. split.
    + rewrite (step_set_finished _ _ _ fin Hs); [reflexivity | | ];
        intros; discriminate.
    + intros g Hg. cbn [base interrupted] in *. rewrite (Hag g Hg).
      rewrite (step_keeps_finished _ _ _ Hs); [reflexivity|].
      intros; discriminate.
  - destruct (escaped x); [discriminate Hstep|].
    destruct (lookup f (interrupted x)) as [b|] eqn:Hint.
    + destruct (main (base x)) as [todo | pending | written | e];
        try discriminate Hstep.
      destruct (existsb (Nat.eqb f) pending); [|discriminate Hstep].
      cbn in Hstep. injection Hstep as <-.
      exists [], fin. split; [reflexivity | exact Hag].
    + destruct (step max_workers net (Yield f) (base x)) as [s'|] eqn:Hs;
        [|discriminate Hstep].
      injection Hstep as <-. exists [Yield f], fin. cbn [exec base]. split.
      * rewrite (step_set_finished _ _ _ fin Hs); [reflexivity | | ].
        -- intros f0 Hf0. injection Hf0 as <-. exact (Hag f Hint).
        -- intros; discriminate.
      * intros g Hg. cbn [base interrupted] in *. rewrite (Hag g Hg).
        rewrite (step_keeps_finished _ _ _ Hs); [reflexivity|].
        intros; discriminate.
  - destruct (step max_workers net Start (base x)) as [s'|] eqn:Hs;
      [|discriminate Hstep].
    injection Hstep as <-. exists [Start], fin. cbn [exec base]. split.
    + rewrite (step_set_finished _ _ _ fin Hs); [reflexivity | | ];
        intros; discriminate.
    + intros g Hg. cbn [base interrupted] in *. rewrite (Hag g Hg).
      rewrite (step_keeps_finished _ _ _ Hs); [reflexivity|].
      intros; discriminate.
  - destruct (step max_workers net (Finish f) (base x)) as [s'|] eqn:Hs;
      [|discriminate Hstep].
    injection Hstep as <-.
    destruct (finish_set_finished _ _ _ fin Hs) as (url & _ & Hfin & Hs').
    exists [Finish f], (fin ++ [(f, task net f url)])%list. cbn [exec base].
    split; [rewrite Hs'; reflexivity|].
    intros g Hg. cbn [base interrupted] in *.
    rewrite Hfin, !lookup_app, (Hag g Hg). reflexivity.
  - destruct (lookup f (in_flight (base x))) as [url|] eqn:Hlook;
      [|discriminate Hstep].
    injection Hstep as <-.
    exists [Finish f], (fin ++ [(f, task net f url)])%list. cbn [exec base].
    split.
    + unfold step, set_finished.
      cbn [main vars future_map work_queue in_flight finished].
      rewrite Hlook. reflexivity.
    + intros g Hg. cbn [base interrupted finished] in *.
      rewrite lookup_app in Hg.
      destruct (lookup g (interrupted x)) eqn:Hgi; [discriminate Hg|].
      rewrite lookup_app, (Hag g Hgi).
      destruct (lookup g (finished (base x))); [reflexivity|].
      unfold lookup, find_key in Hg |- *. cbn in Hg |- *.
      destruct (f =? g)%nat; [discriminate Hg | reflexivity].
Qed.

End Simulation.

Lemma exec_app (max_workers : nat) (net : future -> transport)
    (l1 l2 : list action) (s : state) :
  exec max_workers net (l1 ++ l2) s =
    match exec max_workers net l1 s with
    | Some s' => exec max_workers net l2 s'
    | None => None
    end.
Proof.
  revert s. induction l1 as [|a l1 IH]; intros s; cbn; [reflexivity|].
  destruct (step max_workers net a s) as [s1|]; [apply IH | reflexivity].
Qed.

Section InterruptedRuns.

Variable max_workers : nat.
Variable net : future -> transport.

Lemma xexec_simulated (events : list event) (x x' : xstate)
    (fin : list (future * result outcome)) :
  agrees_off_interrupted x fin ->
  xexec max_workers net events x = Some x' ->
  exists sched fin',
    exec max_workers net sched (set_finished fin (base x)) =
      Some (set_finished fin' (base x')) /\
    agrees_off_interrupted x' fin'.
Proof.
  revert x fin. induction events as [|ev events IH]; intros x fin Hag Hrun;
    cbn in Hrun.
  - injection Hrun as <-. exists [], fin. split; [reflexivity | exact Hag].
  - destruct (xstep max_workers net ev x) as [x1|] eqn:Hstep;
      [|discriminate Hrun].
    destruct (xstep_simulated _ _ _ _ _ _ Hag Hstep)
      as (sched1 & fin1 & Hrun1 & Hag1).
    destruct (IH x1 fin1 Hag1 Hrun) as (sched2 & fin2 & Hrun2 & Hag2).
    exists (sched1 ++ sched2)%list, fin2. split; [|exact Hag2].
    rewrite exec_app, Hrun1. exact Hrun2.
Qed.

(** What has left [check_urls] is an exception outside [Exception] that a
    future held, and it left from inside the loop. *)
Lemma xstep_escaped_origin (ev : event) (x x' : xstate) :
  (forall b, escaped x = Some b ->
             (exists f, In (f, b) (interrupted x)) /\
             exists pending, main (base x) = Collecting pending) ->
  xstep max_workers net ev x = Some x' ->
  forall b, escaped x' = Some b ->
            (exists f, In (f, b) (interrupted x')) /\
            exists pending, main (base x') = Collecting pending.
Proof.
  intros HP Hstep b Hesc'.
  destruct (escaped x) as [b0|] eqn:Hesc.
  - destruct (xstep_escaped _ _ _ _ _ _ Hesc Hstep) as (Hesc1 & Hmain & _).
    assert (b0 = b) by congruence. subst b0.
    destruct (HP b eq_refl) as [[f Hin] [pending Hpend]]. split.
    + exists f. unfold xstep in Hstep.
      destruct ev as [[| f0 | | f0] | f0 b0];
        try rewrite Hesc in Hstep; cbv beta iota in Hstep;
        try discriminate Hstep.
      * destruct (step max_workers net Start (base x)); [|discriminate Hstep].
        injection Hstep as <-. exact Hin.
      * destruct (step max_workers net (Finish f0) (base x));
          [|discriminate Hstep].
        injection Hstep as <-. exact Hin.
      * destruct (lookup f0 (in_flight (base x))); [|discriminate Hstep].
        injection Hstep as <-. cbn. apply in_or_app. left. exact Hin.
    + exists pending. rewrite Hmain. exact Hpend.
  - unfold xstep in Hstep.
    destruct ev as [[| f0 | | f0] | f0 b0];
      try rewrite Hesc in Hstep; cbv beta iota in Hstep.
    + destruct (step max_workers net Main (base x)); [|discriminate Hstep].
      injection Hstep as <-. discriminate Hesc'.
    + destruct (lookup f0 (interrupted x)) as [b1|] eqn:Hint.
      * destruct (main (base x)) as [todo | pending | written | e] eqn:Hmain;
          try discriminate Hstep.
        destruct (existsb (Nat.eqb f0) pending); [|discriminate Hstep].
        cbn in Hstep. injection Hstep as <-. cbn in *.
        injection Hesc' as <-. split.
        -- exists f0. exact (lookup_In _ _ _ Hint).
        -- exists pending. exact Hmain.
      * destruct (step max_workers net (Yield f0) (base x));
          [|discriminate Hstep].
        injection Hstep as <-. discriminate Hesc'.
    + destruct (step max_workers net Start (base x)); [|discriminate Hstep].
      injection Hstep as <-. cbn in Hesc'. congruence.
    + destruct (step max_workers net (Finish f0) (base x));
        [|discriminate Hstep].
      injection Hstep as <-. cbn in Hesc'. congruence.
    + destruct (lookup f0 (in_flight (base x))); [|discriminate Hstep].
      injection Hstep as <-. cbn in Hesc'. congruence.
Qed.

Lemma xexec_escaped_origin (events : list event) (x x' : xstate) :
  (forall b, escaped x = Some b ->
             (exists f, In (f, b) (interrupted x)) /\
             exists pending, main (base x) = Collecting pending) ->
  xexec max_workers net events x = Some x' ->
  forall b, escaped x' = Some b ->
            (exists f, In (f, b) (interrupted x')) /\
            exists pending, main (base x') = Collecting pending.
Proof.
  revert x. induction events as [|ev events IH]; intros x HP Hrun;
    cbn in Hrun.
  - injection Hrun as <-. exact HP.
  - destruct (xstep max_workers net ev x) as [x1|] eqn:Hstep;
      [|discriminate Hrun].
    exact (IH x1 (xstep_escaped_origin _ _ _ HP Hstep) Hrun).
Qed.

End InterruptedRuns.

(** C3 (amended): a call that raises an instance of [Exception], whichever it
    is and even one [fetch_status] does not catch, never makes [check_urls]
    raise, also in runs where other calls end outside [Exception]: no
    instance of [Exception] ever leaves the loop, what leaves [check_urls] is
    always an exception outside [Exception] that a future held, and in every
    complete run the row of a future whose call raised is written with the
    ERROR marker while every other row carries the outcome of its own
    call. *)
Theorem check_urls_exception_is_error_unless_system_exit
    (net : future -> transport) (rows : list row) (events : list event)
    (x : xstate) :
  xexec MAX_WORKERS net events (xinitial rows) = Some x ->
  (forall e, main (base x) <> Propagating e) /\
  (forall b, escaped x = Some b -> exists f, In (f, b) (interrupted x)) /\
  (forall written,
      main (base x) = Returned written ->
      escaped x = None /\
      Permutation written (map (expected_row net) (enumerate rows)) /\
      forall f r e,
        In (f, r) (enumerate rows) -> task net f (URL r) = Raise e ->
        In (mk_result_row (URL r) (Langs r) ERROR (Status r)) written).
Proof.
  intros Hrun.
  assert (Hag : agrees_off_interrupted (xinitial rows) []).
  { intros g _. reflexivity. }
  destruct (xexec_simulated _ _ _ _ _ _ Hag Hrun) as (sched & fin & Hsim & _).
  change (set_finished [] (base (xinitial rows))) with (initial rows) in Hsim.
  assert (Horigin : forall b, escaped x = Some b ->
             (exists f, In (f, b) (interrupted x)) /\
             exists pending, main (base x) = Collecting pending).
  { apply (xexec_escaped_origin _ _ _ _ _) with (2 := Hrun).
    intros b Hinit. discriminate Hinit. }
  split; [|split].
  - intros e Hmain.
    exact (run_never_raises _ _ _ _ _ e Hsim Hmain).
  - intros b Hesc. exact (proj1 (Horigin b Hesc)).
  - intros written Hmain.
    assert (Hnone : escaped x = None).
    { destruct (escaped x) as [b|] eqn:Hesc; [|reflexivity].
      destruct (proj2 (Horigin b eq_refl)) as [pending Hpend]. congruence. }
    pose proof (run_returned _ _ _ _ _ _ Hsim Hmain) as Hp.
    split; [exact Hnone|]. split; [exact Hp|].
    intros f r e Hin Hraise.
    apply (Permutation_in _ (Permutation_sym Hp)).
    apply in_map_iff. exists (f, r). split; [|exact Hin].
    cbn. rewrite Hraise. reflexivity.
Qed.

Lemma check_urls_exception_is_error_unless_system_exit_witness :
  exists x,
    xexec MAX_WORKERS (fun _ => mock) (map Act sample_schedule)
      (xinitial sample_rows) = Some x /\
    task (fun _ => mock) 2%nat "https://odd.test"
      = Raise (OtherException "UnicodeError") /\
    exists written,
      main (base x) = Returned written /\
      In (mk_result_row "https://odd.test" "fr" ERROR "y") written.
Proof.
  destruct (xexec MAX_WORKERS (fun _ => mock) (map Act sample_schedule)
              (xinitial sample_rows)) as [x|] eqn:Hrun;
    [|vm_compute in Hrun; discriminate Hrun].
  pose proof Hrun as Hx. vm_compute in Hx. injection Hx as <-.
  eexists. split; [reflexivity|]. split; [vm_compute; reflexivity|].
  eexists. split; [reflexivity|].
  destruct (check_urls_exception_is_error_unless_system_exit _ _ _ _ Hrun)
    as (_ & _ & Hwritten).
  destruct (Hwritten _ eq_refl) as (_ & _ & Herror).
  apply (Herror 2%nat (mk_row "https://odd.test" "fr" "y")
           (OtherException "UnicodeError")).
  - right. right. left. reflexivity.
  - vm_compute. reflexivity.
Defined.
